(** * Alpha-beta search over generated game trees (main.py)

    A shallow embedding of [gen_tree], [alpha_beta] and [alpha_beta_root].

    Conventions of the embedding.
    - Python integers are unbounded: they are [Z].
    - A Python [str] is the list of its code points.
    - [print] appends one line to standard output; a line is kept as the
      format string that produced it together with its arguments
      ([line] below), in the order in which the calls happen.
    - An exception ends every enclosing call at once (the source has no
      [try]); the list object [leaf_values] keeps the changes made before
      the exception.
    - Interpreter resource limits (recursion depth, memory) are not part of
      the model; a recursion that never reaches its base case is a
      computation that no amount of fuel completes. *)

From Stdlib Require Import ZArith List Bool Lia.
Import ListNotations.
Local Open Scope Z_scope.

(** ** Strings *)

Definition str := list Z.

(* ' ' *)
Definition SPACE : Z := 32.
(* '-' *)
Definition DASH : Z := 45.
(* ord('a') *)
Definition ord_a : Z := 97.

(** ** Module constants (main.py 6-11) *)

Definition RAND_MIN : Z := -20.
Definition RAND_MAX : Z := 20.

Definition MIN_VALUE : Z := - (2 ^ 31).
Definition MAX_VALUE : Z := 2 ^ 31.

(** ** Nodes (main.py 14-33)

    [type(node) is LeafNode] is the constructor test.  [InnerNode] is an
    object whose class is exactly [Node]. *)

#[local] Unset Elimination Schemes.
Inductive Node : Type :=
| LeafNode (name : str) (eval : Z)
| InnerNode (name : str) (child_nodes : list Node).
#[local] Set Elimination Schemes.

(** Induction principle that reaches the children of a node. *)
Section NodeInd.
Variable P : Node -> Prop.
Hypothesis Hleaf : forall name eval, P (LeafNode name eval).
Hypothesis Hinner :
  forall name child_nodes, Forall P child_nodes -> P (InnerNode name child_nodes).

Fixpoint Node_rose_ind (node : Node) : P node :=
  match node with
  | LeafNode name eval => Hleaf name eval
  | InnerNode name child_nodes =>
      Hinner name child_nodes
        ((fix all (l : list Node) : Forall P l :=
            match l with
            | [] => Forall_nil P
            | ch :: rest => Forall_cons ch (Node_rose_ind ch) (all rest)
            end) child_nodes)
  end.
End NodeInd.

(** Leaf evaluations in pre-order, left to right. *)
Fixpoint leaf_evals (node : Node) : list Z :=
  match node with
  | LeafNode _ eval => [eval]
  | InnerNode _ child_nodes => flat_map leaf_evals child_nodes
  end.

(** Every node that is not a leaf has at least one child. *)
Fixpoint well_formed (node : Node) : bool :=
  match node with
  | LeafNode _ _ => true
  | InnerNode _ child_nodes =>
      negb (length child_nodes =? 0)%nat && forallb well_formed child_nodes
  end.

(** All leaves lie at depth exactly [d] and every node above them has
    exactly [b] children. *)
Fixpoint uniform (d b : nat) (node : Node) {struct d} : bool :=
  match d, node with
  | O, LeafNode _ _ => true
  | S d', InnerNode _ child_nodes =>
      (length child_nodes =? b)%nat && forallb (uniform d' b) child_nodes
  | _, _ => false
  end.

(** ** indent (main.py 90-91) *)

Definition indent (s : str) : str := s ++ [SPACE; SPACE].

(** ** Standard output of [alpha_beta] *)

Inductive line : Type :=
(* 111: '{}{} eval: {}'.format(spaces, node.name, node.eval) *)
| PrLeaf (spaces name : str) (eval : Z)
(* 115: '{spaces}node: {name} α:{alpha} β: {beta} is_max: {is_max}' *)
| PrNode (spaces name : str) (alpha beta : Z) (is_max : bool)
(* 126: '{spaces}{name} updating α: {alpha} -> {v}' *)
| PrUpdAlpha (spaces name : str) (alpha v : Z)
(* 132: '{spaces}BETA cut-off: α:{alpha} β: {beta}', printed in the
   maximizing branch *)
| PrBETAcut (spaces : str) (alpha beta : Z)
(* 148: '{spaces}{name} updating β: {beta} -> {v}' *)
| PrUpdBeta (spaces name : str) (beta v : Z)
(* 156: '{spaces}ALPHA cut-off: α:{alpha} β: {beta}', printed in the
   minimizing branch *)
| PrALPHAcut (spaces : str) (alpha beta : Z)
(* 137, 159: '{spaces}{name} returning value: {v}' *)
| PrReturn (spaces name : str) (v : Z).

(* if verbose: print(...) *)
Definition say (verbose : bool) (l : line) : list line :=
  if verbose then [l] else [].

(** ** alpha_beta (main.py 94-160)

    The two [for] loops are written once, over the recursive call [rec]
    made on each child; [alpha_beta] below ties the knot.  A result is the
    returned value together with the lines printed meanwhile. *)

Section Loops.
(* rec ch alpha beta: the call alpha_beta(ch, alpha, beta, ..., indent(spaces)) *)
Variable rec : Node -> Z -> Z -> Z * list line.
Variables (spaces name : str) (verbose : bool).

(* 120-135 *)
Fixpoint max_loop (child_nodes : list Node) (v alpha beta : Z)
  : Z * list line :=
  match child_nodes with
  | [] => (v, [])
  | ch :: rest =>
      let '(ab, out) := rec ch alpha beta in
      let v := Z.max v ab in
      let '(alpha, out_upd) :=
        if v >? alpha
        then (v, say verbose (PrUpdAlpha spaces name alpha v))
        else (alpha, []) in
      if beta <=? alpha
      then (v, out ++ out_upd ++ say verbose (PrBETAcut spaces alpha beta))
      else
        let '(r, out_rest) := max_loop rest v alpha beta in
        (r, out ++ out_upd ++ out_rest)
  end.

(* 142-157; line 148 formats beta=alpha *)
Fixpoint min_loop (child_nodes : list Node) (v alpha beta : Z)
  : Z * list line :=
  match child_nodes with
  | [] => (v, [])
  | ch :: rest =>
      let '(ab, out) := rec ch alpha beta in
      let v := Z.min ab v in
      let '(beta, out_upd) :=
        if v <? beta
        then (v, say verbose (PrUpdBeta spaces name alpha v))
        else (beta, []) in
      if beta <=? alpha
      then (v, out ++ out_upd ++ say verbose (PrALPHAcut spaces alpha beta))
      else
        let '(r, out_rest) := min_loop rest v alpha beta in
        (r, out ++ out_upd ++ out_rest)
  end.
End Loops.

(** The recursive calls of lines 121 and 143 do not pass [verbose], so they
    run with its default, [True]. *)
Fixpoint alpha_beta (node : Node) (alpha beta : Z) (is_max : bool)
  (spaces : str) (verbose : bool) : Z * list line :=
  match node with
  | LeafNode name eval => (eval, say verbose (PrLeaf spaces name eval))
  | InnerNode name child_nodes =>
      let out_node := say verbose (PrNode spaces name alpha beta is_max) in
      if is_max then
        let '(v, out) :=
          max_loop
            (fun ch a b => alpha_beta ch a b false (indent spaces) true)
            spaces name verbose child_nodes MIN_VALUE alpha beta in
        (v, out_node ++ out ++ say verbose (PrReturn spaces name v))
      else
        let '(v, out) :=
          min_loop
            (fun ch a b => alpha_beta ch a b true (indent spaces) true)
            spaces name verbose child_nodes MAX_VALUE alpha beta in
        (v, out_node ++ out ++ say verbose (PrReturn spaces name v))
  end.

(** ** alpha_beta_root (main.py 163-170) *)

Definition alpha_beta_root (node : Node) (is_max : bool) : Z * list line :=
  alpha_beta node MIN_VALUE MAX_VALUE is_max [] true.

(** ** Exhaustive evaluation

    The min/max evaluation that visits every child: the loops of
    [alpha_beta] without their [break], hence without alpha and beta. *)

Fixpoint minimax (node : Node) (is_max : bool) : Z :=
  match node with
  | LeafNode _ eval => eval
  | InnerNode _ child_nodes =>
      if is_max
      then fold_left (fun v ch => Z.max v (minimax ch false)) child_nodes MIN_VALUE
      else fold_left (fun v ch => Z.min (minimax ch true) v) child_nodes MAX_VALUE
  end.

(** ** gen_tree (main.py 36-72) *)

Inductive exn : Type :=
(* leaf_values[0] on an empty list *)
| IndexError
(* chr() of an argument outside range(0x110000) *)
| ValueError.

(** How a call ends: with a value, with an exception, or not within the
    fuel it was given. *)
Inductive outcome (A : Type) : Type :=
| Ret (a : A)
| Raise (e : exn)
| OutOfFuel.
Arguments Ret {A} a.
Arguments Raise {A} e.
Arguments OutOfFuel {A}.

(* 0x110000: the code points are range(0x110000) *)
Definition CHR_RANGE : Z := 1114112.

(* chr(n): ValueError outside range(0x110000).  The arguments met here are
   ord('a') + i for i = 0, 1, 2, ... in turn, so the first one out of range
   is 0x110000 itself. *)
Definition chr (n : Z) : outcome str :=
  if (0 <=? n) && (n <? CHR_RANGE) then Ret [n] else Raise ValueError.

(* The largest br_factor whose child suffixes chr(ord('a') + i) all exist. *)
Definition MAX_BR_FACTOR : Z := CHR_RANGE - ord_a.

(* range(n) *)
Definition range (n : Z) : list Z := map Z.of_nat (seq 0 (Z.to_nat n)).

(** What generation reads and changes: the argument [leaf_values], which
    is [None] or one list object shared by all the recursive calls (its
    current contents are kept here), and how many numbers were drawn so far
    from the global generator of numpy. *)
Record gen_state : Type := mk_state {
  leaf_values : option (list Z);
  drawn : nat
}.

Section Builtins.
(* str.upper *)
Variable str_upper : str -> str.
(* The k-th number that
   np.random.random_integers(low=RAND_MIN, high=RAND_MAX, size=1)[0]
   gives in this run. *)
Variable random_integers : nat -> Z.

Section GenLoop.
(* rec child_name: the call
   gen_tree(depth-1, not is_max, br_factor, child_name, leaf_values) *)
Variable rec : str -> gen_state -> outcome Node * gen_state.
Variables (is_max : bool) (name : str).

(* 60-70; [child_nodes] is node.child_nodes so far *)
Fixpoint gen_loop (indices : list Z) (child_nodes : list Node)
  (st : gen_state) : outcome (list Node) * gen_state :=
  match indices with
  | [] => (Ret child_nodes, st)
  | i :: indices' =>
      match chr (ord_a + i) with
      | Ret child_suffix =>
          let child_suffix :=
            if negb is_max then str_upper child_suffix else child_suffix in
          let child_name := name ++ [DASH] ++ child_suffix in
          match rec child_name st with
          | (Ret child_node, st') =>
              gen_loop indices' (child_nodes ++ [child_node]) st'
          | (Raise e, st') => (Raise e, st')
          | (OutOfFuel, st') => (OutOfFuel, st')
          end
      | Raise e => (Raise e, st)
      | OutOfFuel => (OutOfFuel, st)
      end
  end.
End GenLoop.

Fixpoint gen_tree (fuel : nat) (depth : Z) (is_max : bool) (br_factor : Z)
  (name : str) (st : gen_state) : outcome Node * gen_state :=
  match fuel with
  | O => (OutOfFuel, st)
  | S fuel' =>
      if depth =? 0 then
        match leaf_values st with
        | None =>
            (Ret (LeafNode name (random_integers (drawn st))),
             mk_state None (S (drawn st)))
        | Some [] => (Raise IndexError, st)
        | Some (val :: rest) =>
            (Ret (LeafNode name val), mk_state (Some rest) (drawn st))
        end
      else
        match
          gen_loop
            (fun child_name =>
               gen_tree fuel' (depth - 1) (negb is_max) br_factor child_name)
            is_max name (range br_factor) [] st
        with
        | (Ret child_nodes, st') => (Ret (InnerNode name child_nodes), st')
        | (Raise e, st') => (Raise e, st')
        | (OutOfFuel, st') => (OutOfFuel, st')
        end
  end.
End Builtins.

(** str.upper on the letters a to z; other code points are left as they
    are.  Used where a concrete run is evaluated. *)
Definition ascii_upper (s : str) : str :=
  map (fun c => if (97 <=? c) && (c <=? 122) then c - 32 else c) s.

(** The lines of leaves, in the order printed. *)
Definition leaves_printed (out : list line) : list Z :=
  flat_map (fun l => match l with PrLeaf _ _ eval => [eval] | _ => [] end) out.

(** ** Trees and calls used as examples *)

(* 'A' *)
Definition name_A : str := [65].

(* A maximizing root over the leaves 3 and 5. *)
Definition tree_3_5 : Node :=
  InnerNode name_A [LeafNode [65; 45; 97] 3; LeafNode [65; 45; 98] 5].

(* A maximizing root over two leaves above MAX_VALUE. *)
Definition tree_above_max : Node :=
  InnerNode name_A [LeafNode [65; 45; 97] (2 ^ 31 + 1);
                    LeafNode [65; 45; 98] (2 ^ 31 + 2)].

(* A node that is not a leaf and has no child. *)
Definition tree_childless : Node := InnerNode name_A [].

(* The call made on a child by a node printed without indentation. *)
Definition call_child (is_max : bool) : Node -> Z -> Z -> Z * list line :=
  fun ch a b => alpha_beta ch a b is_max (indent []) true.

(* The tree that gen_tree(2, True, 2, name, [3, 5, 2, 9]) builds: the
   children of the root are named with lower-case suffixes, the leaves with
   upper-cased ones. *)
Definition tree_3_5_2_9 (str_upper : str -> str) (name : str) : Node :=
  InnerNode name
    [InnerNode (name ++ [DASH; 97])
       [LeafNode ((name ++ [DASH; 97]) ++ DASH :: str_upper [97]) 3;
        LeafNode ((name ++ [DASH; 97]) ++ DASH :: str_upper [98]) 5];
     InnerNode (name ++ [DASH; 98])
       [LeafNode ((name ++ [DASH; 98]) ++ DASH :: str_upper [97]) 2;
        LeafNode ((name ++ [DASH; 98]) ++ DASH :: str_upper [98]) 9]].

(* A list object holding the given values, nothing drawn yet. *)
Definition supplied (values : list Z) : gen_state := mk_state (Some values) 0.

(* A random source that always answers 0. *)
Definition zeros : nat -> Z := fun _ => 0.

(** [fills n d b call]: the call builds a uniform tree of depth [d] from
    the first [n] values when there are that many, and otherwise raises
    IndexError with every value consumed. *)
Definition fills (n d b : nat)
  (call : gen_state -> outcome Node * gen_state) : Prop :=
  forall lv k,
    ((n <= length lv)%nat ->
     exists t,
       call (mk_state (Some lv) k) = (Ret t, mk_state (Some (skipn n lv)) k) /\
       uniform d b t = true /\
       leaf_evals t = firstn n lv) /\
    ((length lv < n)%nat ->
     call (mk_state (Some lv) k) = (Raise IndexError, mk_state (Some []) k)).

(** [in_order call]: a tree that the call returns holds, in its leaves
    from left to right, the values taken from the front of the list, and
    the rest of the list is what the call leaves behind. *)
Definition in_order (call : gen_state -> outcome Node * gen_state) : Prop :=
  forall lv k t st',
    call (mk_state (Some lv) k) = (Ret t, st') ->
    exists lv', st' = mk_state (Some lv') k /\ lv = leaf_evals t ++ lv'.

(** The call ended within its fuel. *)
Definition ended {A : Type} (r : outcome A) : Prop := r <> OutOfFuel.

(** [leaf_from_empty ... fuel depth is_max br_factor name st]: the call
    gen_tree(depth, is_max, br_factor, name, leaf_values), started in
    state [st], comes to make a leaf while the list is empty.  Either the
    call is itself at depth 0 with an empty list, or the children before
    some index [i] were all built, the name of child [i] was formed, and
    the call on child [i] comes to that point. *)
Inductive leaf_from_empty (str_upper : str -> str) (random_integers : nat -> Z)
  : nat -> Z -> bool -> Z -> str -> gen_state -> Prop :=
| empty_here : forall fuel is_max br_factor name k,
    leaf_from_empty str_upper random_integers
      (S fuel) 0 is_max br_factor name (mk_state (Some []) k)
| empty_below : forall fuel depth is_max br_factor name st
                       before i after child_nodes st1 child_suffix,
    depth <> 0 ->
    range br_factor = before ++ i :: after ->
    gen_loop str_upper
      (fun child_name =>
         gen_tree str_upper random_integers fuel (depth - 1) (negb is_max)
           br_factor child_name)
      is_max name before [] st = (Ret child_nodes, st1) ->
    chr (ord_a + i) = Ret child_suffix ->
    leaf_from_empty str_upper random_integers
      fuel (depth - 1) (negb is_max) br_factor
      (name ++ [DASH] ++
       (if negb is_max return str
        then str_upper child_suffix else child_suffix)) st1 ->
    leaf_from_empty str_upper random_integers
      (S fuel) depth is_max br_factor name st.

(** ** print_tree (main.py 75-87)

    One printed line per node, kept as its format string with the
    arguments, like the lines of [alpha_beta]. *)

Inductive shown : Type :=
(* 83: '{}{} eval: {}'.format(spaces, root_node.name, root_node.eval) *)
| ShLeaf (spaces name : str) (eval : Z)
(* 85: '{}{}'.format(spaces, root_node.name) *)
| ShNode (spaces name : str).

Fixpoint print_tree (root_node : Node) (spaces : str) : list shown :=
  match root_node with
  | LeafNode name eval => [ShLeaf spaces name eval]
  | InnerNode name child_nodes =>
      ShNode spaces name
      :: flat_map (fun child_node => print_tree child_node (indent spaces))
           child_nodes
  end.

(** ** Fields and measures of a tree *)

(* node.name *)
Definition node_name (node : Node) : str :=
  match node with
  | LeafNode name _ => name
  | InnerNode name _ => name
  end.

(* node.child_nodes; Node.__init__ sets it to [] and nothing ever appends
   to the list of a LeafNode *)
Definition node_children (node : Node) : list Node :=
  match node with
  | LeafNode _ _ => []
  | InnerNode _ child_nodes => child_nodes
  end.

Fixpoint count_nodes (node : Node) : nat :=
  match node with
  | LeafNode _ _ => 1
  | InnerNode _ child_nodes => S (list_sum (map count_nodes child_nodes))
  end.

(** The same tree with every name replaced by the empty string. *)
Fixpoint erase_names (node : Node) : Node :=
  match node with
  | LeafNode _ eval => LeafNode [] eval
  | InnerNode _ child_nodes => InnerNode [] (map erase_names child_nodes)
  end.

(** The indentation of every line of [print_tree]. *)
Definition shown_spaces (l : shown) : str :=
  match l with
  | ShLeaf spaces _ _ => spaces
  | ShNode spaces _ => spaces
  end.

(** The leaf lines among printed lines, each as (spaces, name, eval): for
    the output of [alpha_beta] and for that of [print_tree].  The two
    format strings are the same. *)
Definition leaf_lines_printed (out : list line) : list (str * str * Z) :=
  flat_map (fun l => match l with
                     | PrLeaf spaces name eval => [(spaces, name, eval)]
                     | _ => []
                     end) out.

Definition leaf_lines_shown (out : list shown) : list (str * str * Z) :=
  flat_map (fun l => match l with
                     | ShLeaf spaces name eval => [(spaces, name, eval)]
                     | _ => []
                     end) out.

(** [subseq l1 l2]: [l1] is [l2] with some elements left out, the others
    in the same order. *)
Inductive subseq {A : Type} : list A -> list A -> Prop :=
| subseq_nil : subseq [] []
| subseq_take : forall x l1 l2, subseq l1 l2 -> subseq (x :: l1) (x :: l2)
| subseq_skip : forall x l1 l2, subseq l1 l2 -> subseq l1 (x :: l2).

(** The suffix that line 61-63 gives to child [i] of a node generated with
    [is_max]. *)
Definition suffix_of (str_upper : str -> str) (is_max : bool) (i : Z) : str :=
  if negb is_max then str_upper [ord_a + i] else [ord_a + i].

(** [draws random_integers n d b call]: without a list, the call builds a
    uniform tree of depth [d] whose leaves are the next [n] numbers of the
    random source, in order. *)
Definition draws (random_integers : nat -> Z) (n d b : nat)
  (call : gen_state -> outcome Node * gen_state) : Prop :=
  forall k,
    exists t,
      call (mk_state None k) = (Ret t, mk_state None (k + n)) /\
      uniform d b t = true /\
      leaf_evals t = map random_integers (seq k n).

(** [front_only call]: whatever way the call ends, the list it leaves is
    the list it was given without some values at the front, and nothing
    was drawn. *)
Definition front_only {A : Type}
  (call : gen_state -> outcome A * gen_state) : Prop :=
  forall lv k r st',
    call (mk_state (Some lv) k) = (r, st') ->
    exists taken lv', st' = mk_state (Some lv') k /\ lv = taken ++ lv'.

(** Every leaf lies at depth exactly [d]; nothing is asked of the number
    of children. *)
Fixpoint leaves_at_depth (d : nat) (node : Node) {struct d} : bool :=
  match d, node with
  | O, LeafNode _ _ => true
  | S d', InnerNode _ child_nodes => forallb (leaves_at_depth d') child_nodes
  | _, _ => false
  end.

(* A root over a node with two leaves and a node with three. *)
Definition tree_2_and_3 : Node :=
  InnerNode name_A
    [InnerNode [65; 45; 97]
       [LeafNode [65; 45; 97; 45; 65] 1; LeafNode [65; 45; 97; 45; 66] 2];
     InnerNode [65; 45; 98]
       [LeafNode [65; 45; 98; 45; 65] 3; LeafNode [65; 45; 98; 45; 66] 4;
        LeafNode [65; 45; 98; 45; 67] 5]].

(* ------------------------------------------------------------------ *)
(** * Properties of alpha_beta *)

(** ** The value of a loop, without the printing *)

Lemma gtb_max (v alpha : Z) :
  (if v >? alpha then v else alpha) = Z.max alpha v.
Proof.
  rewrite Z.gtb_ltb. destruct (Z.ltb_spec alpha v); lia.
Qed.

Lemma ltb_min (v beta : Z) :
  (if v <? beta then v else beta) = Z.min beta v.
Proof.
  destruct (Z.ltb_spec v beta); lia.
Qed.

Section LoopValues.
Variable rec : Node -> Z -> Z -> Z * list line.
Variables (spaces name : str) (verbose : bool).

Lemma max_loop_value ch rest v alpha beta :
  fst (max_loop rec spaces name verbose (ch :: rest) v alpha beta) =
  let v' := Z.max v (fst (rec ch alpha beta)) in
  let alpha' := Z.max alpha v' in
  if beta <=? alpha' then v'
  else fst (max_loop rec spaces name verbose rest v' alpha' beta).
Proof.
  cbn [max_loop]. destruct (rec ch alpha beta) as [ab out]. cbn [fst].
  cbv zeta. rewrite <- (gtb_max (Z.max v ab) alpha).
  destruct (Z.max v ab >? alpha); cbn iota.
  - destruct (beta <=? Z.max v ab); [reflexivity|].
    destruct (max_loop rec spaces name verbose rest _ _ beta); reflexivity.
  - destruct (beta <=? alpha); [reflexivity|].
    destruct (max_loop rec spaces name verbose rest _ _ beta); reflexivity.
Qed.

Lemma min_loop_value ch rest v alpha beta :
  fst (min_loop rec spaces name verbose (ch :: rest) v alpha beta) =
  let v' := Z.min (fst (rec ch alpha beta)) v in
  let beta' := Z.min beta v' in
  if beta' <=? alpha then v'
  else fst (min_loop rec spaces name verbose rest v' alpha beta').
Proof.
  cbn [min_loop]. destruct (rec ch alpha beta) as [ab out]. cbn [fst].
  cbv zeta. rewrite <- (ltb_min (Z.min ab v) beta).
  destruct (Z.min ab v <? beta); cbn iota.
  - destruct (Z.min ab v <=? alpha); [reflexivity|].
    destruct (min_loop rec spaces name verbose rest _ alpha _); reflexivity.
  - destruct (beta <=? alpha); [reflexivity|].
    destruct (min_loop rec spaces name verbose rest _ alpha _); reflexivity.
Qed.
End LoopValues.

Lemma max_loop_value_silent rec spaces name verbose child_nodes :
  forall v alpha beta,
    fst (max_loop rec spaces name verbose child_nodes v alpha beta) =
    fst (max_loop rec spaces name false child_nodes v alpha beta).
Proof.
  induction child_nodes as [|ch rest IH]; intros v alpha beta.
  - reflexivity.
  - rewrite !max_loop_value. cbv zeta.
    destruct (beta <=? _); [reflexivity | apply IH].
Qed.

Lemma min_loop_value_silent rec spaces name verbose child_nodes :
  forall v alpha beta,
    fst (min_loop rec spaces name verbose child_nodes v alpha beta) =
    fst (min_loop rec spaces name false child_nodes v alpha beta).
Proof.
  induction child_nodes as [|ch rest IH]; intros v alpha beta.
  - reflexivity.
  - rewrite !min_loop_value. cbv zeta.
    destruct (_ <=? alpha); [reflexivity | apply IH].
Qed.

Lemma alpha_beta_value_inner name child_nodes alpha beta is_max spaces verbose :
  fst (alpha_beta (InnerNode name child_nodes) alpha beta is_max spaces verbose) =
  if is_max
  then fst (max_loop (fun ch a b => alpha_beta ch a b false (indent spaces) true)
              spaces name false child_nodes MIN_VALUE alpha beta)
  else fst (min_loop (fun ch a b => alpha_beta ch a b true (indent spaces) true)
              spaces name false child_nodes MAX_VALUE alpha beta).
Proof.
  cbn [alpha_beta]. destruct is_max.
  - rewrite <- (max_loop_value_silent _ spaces name verbose).
    destruct (max_loop _ spaces name verbose child_nodes _ _ _); reflexivity.
  - rewrite <- (min_loop_value_silent _ spaces name verbose).
    destruct (min_loop _ spaces name verbose child_nodes _ _ _); reflexivity.
Qed.

(** C9. The integer that [alpha_beta] returns is the same with
    [verbose=True] and with [verbose=False], for every node, alpha, beta,
    is_max and indentation: printing does not change the outcome of the
    search. *)
Theorem alpha_beta_verbose_same_value :
  forall node alpha beta is_max spaces,
    fst (alpha_beta node alpha beta is_max spaces true) =
    fst (alpha_beta node alpha beta is_max spaces false).
Proof.
  intros [name eval | name child_nodes] alpha beta is_max spaces.
  - reflexivity.
  - now rewrite !alpha_beta_value_inner.
Qed.

(** ** What a search window guarantees

    [window_sound a b r m]: a search with window (a, b) that returned [r]
    on a node of exhaustive value [m] is exact inside the window and a
    bound on [m] outside of it. *)

Definition window_sound (a b r m : Z) : Prop :=
  (r <= a -> m <= r) /\ (b <= r -> r <= m) /\ (a < r < b -> r = m).

Lemma fold_max_ge (f : Node -> Z) (l : list Node) :
  forall v, v <= fold_left (fun v ch => Z.max v (f ch)) l v.
Proof.
  induction l as [|ch rest IH]; intros v; cbn [fold_left]; [lia|].
  specialize (IH (Z.max v (f ch))). lia.
Qed.

Lemma fold_min_le (f : Node -> Z) (l : list Node) :
  forall v, fold_left (fun v ch => Z.min (f ch) v) l v <= v.
Proof.
  induction l as [|ch rest IH]; intros v; cbn [fold_left]; [lia|].
  specialize (IH (Z.min (f ch) v)). lia.
Qed.

Section Windows.
Variable rec : Node -> Z -> Z -> Z * list line.
Variable f : Node -> Z.
Variables (spaces name : str).

Let rec_sound (ch : Node) : Prop :=
  forall a b, MIN_VALUE <= a -> a < b -> b <= MAX_VALUE ->
              window_sound a b (fst (rec ch a b)) (f ch).

Lemma max_loop_window child_nodes a0 b :
  Forall rec_sound child_nodes ->
  MIN_VALUE <= a0 -> b <= MAX_VALUE ->
  forall v alpha m,
    alpha = Z.max a0 v -> alpha < b ->
    (v <= a0 -> m <= v) -> (a0 < v -> v = m) ->
    window_sound a0 b
      (fst (max_loop rec spaces name false child_nodes v alpha b))
      (fold_left (fun v ch => Z.max v (f ch)) child_nodes m).
Proof.
  intros Hall Ha0 Hb.
  induction Hall as [|ch rest Hch _ IH]; intros v alpha m Halpha Hlt Hlow Hin.
  - cbn. unfold window_sound. lia.
  - rewrite max_loop_value. cbv zeta. cbn [fold_left].
    assert (Hw : window_sound alpha b (fst (rec ch alpha b)) (f ch))
      by (apply Hch; lia).
    set (ab := fst (rec ch alpha b)) in *.
    destruct (Z.leb_spec b (Z.max alpha (Z.max v ab))) as [Hcut|Hgo].
    + pose proof (fold_max_ge f rest (Z.max m (f ch))).
      unfold window_sound in *. lia.
    + apply IH; unfold window_sound in Hw; lia.
Qed.

Lemma min_loop_window child_nodes a b0 :
  Forall rec_sound child_nodes ->
  MIN_VALUE <= a -> b0 <= MAX_VALUE ->
  forall v beta m,
    beta = Z.min b0 v -> a < beta ->
    (b0 <= v -> v <= m) -> (v < b0 -> v = m) ->
    window_sound a b0
      (fst (min_loop rec spaces name false child_nodes v a beta))
      (fold_left (fun v ch => Z.min (f ch) v) child_nodes m).
Proof.
  intros Hall Ha Hb0.
  induction Hall as [|ch rest Hch _ IH]; intros v beta m Hbeta Hlt Hhigh Hin.
  - cbn. unfold window_sound. lia.
  - rewrite min_loop_value. cbv zeta. cbn [fold_left].
    assert (Hw : window_sound a beta (fst (rec ch a beta)) (f ch))
      by (apply Hch; lia).
    set (ab := fst (rec ch a beta)) in *.
    destruct (Z.leb_spec (Z.min beta (Z.min ab v)) a) as [Hcut|Hgo].
    + pose proof (fold_min_le f rest (Z.min (f ch) m)).
      unfold window_sound in *. lia.
    + apply IH; unfold window_sound in Hw; lia.
Qed.
End Windows.

Lemma alpha_beta_window node :
  forall is_max a b spaces verbose,
    MIN_VALUE <= a -> a < b -> b <= MAX_VALUE ->
    window_sound a b (fst (alpha_beta node a b is_max spaces verbose))
                 (minimax node is_max).
Proof.
  induction node as [name eval | name child_nodes IH] using Node_rose_ind;
    intros is_max a b spaces verbose Ha Hab Hb.
  - cbn. unfold window_sound. lia.
  - rewrite alpha_beta_value_inner. cbn [minimax]. destruct is_max.
    + apply max_loop_window with (f := fun ch => minimax ch false);
        try lia.
      eapply Forall_impl; [|exact IH]. intros ch Hch a' b' ? ? ?.
      now apply Hch.
    + apply min_loop_window with (f := fun ch => minimax ch true);
        try lia.
      eapply Forall_impl; [|exact IH]. intros ch Hch a' b' ? ? ?.
      now apply Hch.
Qed.

(** ** Range of the exhaustive value *)

Definition in_range (e : Z) : Prop := MIN_VALUE <= e <= MAX_VALUE.

Lemma Forall_flat_map_children (P : Z -> Prop) (child_nodes : list Node) :
  Forall P (flat_map leaf_evals child_nodes) ->
  Forall (fun ch => Forall P (leaf_evals ch)) child_nodes.
Proof.
  induction child_nodes as [|ch rest IH]; cbn [flat_map]; intros H.
  - constructor.
  - apply Forall_app in H as [H1 H2]. constructor; auto.
Qed.

Lemma fold_max_range (f : Node -> Z) (l : list Node) :
  Forall (fun ch => in_range (f ch)) l ->
  forall v, in_range v -> in_range (fold_left (fun v ch => Z.max v (f ch)) l v).
Proof.
  unfold in_range.
  induction 1 as [|ch rest Hch _ IH]; intros v Hv; cbn [fold_left]; [lia|].
  apply IH. lia.
Qed.

Lemma fold_min_range (f : Node -> Z) (l : list Node) :
  Forall (fun ch => in_range (f ch)) l ->
  forall v, in_range v -> in_range (fold_left (fun v ch => Z.min (f ch) v) l v).
Proof.
  unfold in_range.
  induction 1 as [|ch rest Hch _ IH]; intros v Hv; cbn [fold_left]; [lia|].
  apply IH. lia.
Qed.

Lemma MIN_MAX_VALUE : MIN_VALUE < MAX_VALUE.
Proof. reflexivity. Qed.

Lemma minimax_in_range node :
  forall is_max,
    Forall in_range (leaf_evals node) -> in_range (minimax node is_max).
Proof.
  pose proof MIN_MAX_VALUE as Hlt.
  induction node as [name eval | name child_nodes IH] using Node_rose_ind;
    intros is_max Hleaves.
  - cbn in *. now inversion Hleaves.
  - cbn [leaf_evals] in Hleaves. apply Forall_flat_map_children in Hleaves.
    assert (Hch : forall m, Forall (fun ch => in_range (minimax ch m)) child_nodes).
    { intros m. rewrite Forall_forall in *. intros ch Hin. auto. }
    cbn [minimax]. destruct is_max.
    + apply fold_max_range; [apply Hch | unfold in_range; lia].
    + apply fold_min_range; [apply Hch | unfold in_range; lia].
Qed.

(** Where the exhaustive value lies in the window of the root call, the
    search returns it. *)
Lemma alpha_beta_root_exact node is_max :
  in_range (minimax node is_max) ->
  fst (alpha_beta_root node is_max) = minimax node is_max.
Proof.
  intros Hm. pose proof MIN_MAX_VALUE as Hlt.
  pose proof (alpha_beta_window node is_max MIN_VALUE MAX_VALUE [] true) as Hw.
  unfold alpha_beta_root, window_sound, in_range in *. lia.
Qed.

(** C1, as the code has it.  For every tree whose leaf values all lie
    between MIN_VALUE and MAX_VALUE (both included), [alpha_beta_root]
    returns exactly the value of the exhaustive min/max evaluation of the
    same tree. *)
Theorem alpha_beta_root_is_minimax :
  forall node is_max,
    Forall (fun e => MIN_VALUE <= e <= MAX_VALUE) (leaf_evals node) ->
    fst (alpha_beta_root node is_max) = minimax node is_max.
Proof.
  intros node is_max Hleaves.
  apply alpha_beta_root_exact, minimax_in_range. exact Hleaves.
Qed.

Lemma alpha_beta_root_is_minimax_witness :
  Forall (fun e => MIN_VALUE <= e <= MAX_VALUE) (leaf_evals tree_3_5) /\
  fst (alpha_beta_root tree_3_5 true) = minimax tree_3_5 true.
Proof.
  assert (H : Forall (fun e => MIN_VALUE <= e <= MAX_VALUE) (leaf_evals tree_3_5)).
  { repeat constructor; unfold MIN_VALUE, MAX_VALUE; lia. }
  split; [exact H|].
  apply (alpha_beta_root_is_minimax tree_3_5 true H).
Defined.

(** C1 as stated fails: a leaf at or above MAX_VALUE cuts the root loop
    off before a larger sibling is read. *)
Lemma alpha_beta_root_not_minimax :
  fst (alpha_beta_root tree_above_max true) = 2 ^ 31 + 1 /\
  minimax tree_above_max true = 2 ^ 31 + 2 /\
  fst (alpha_beta_root tree_above_max true) <> minimax tree_above_max true.
Proof.
  split; [reflexivity|]. split; [reflexivity|].
  vm_compute. discriminate.
Qed.

(** ** The exhaustive value of a well-formed tree is one of its leaves *)

Lemma fold_max_ge_elem (f : Node -> Z) (l : list Node) :
  forall v ch, In ch l -> f ch <= fold_left (fun v ch => Z.max v (f ch)) l v.
Proof.
  induction l as [|c rest IH]; intros v ch Hin; [contradiction|].
  cbn [fold_left]. destruct Hin as [->|Hin].
  - pose proof (fold_max_ge f rest (Z.max v (f ch))). lia.
  - now apply IH.
Qed.

Lemma fold_min_le_elem (f : Node -> Z) (l : list Node) :
  forall v ch, In ch l -> fold_left (fun v ch => Z.min (f ch) v) l v <= f ch.
Proof.
  induction l as [|c rest IH]; intros v ch Hin; [contradiction|].
  cbn [fold_left]. destruct Hin as [->|Hin].
  - pose proof (fold_min_le f rest (Z.min (f ch) v)). lia.
  - now apply IH.
Qed.

Lemma fold_max_pick (f : Node -> Z) (l : list Node) :
  forall v,
    fold_left (fun v ch => Z.max v (f ch)) l v = v \/
    exists ch, In ch l /\ fold_left (fun v ch => Z.max v (f ch)) l v = f ch.
Proof.
  induction l as [|c rest IH]; intros v; cbn [fold_left]; [now left|].
  destruct (IH (Z.max v (f c))) as [Heq | (ch & Hin & Heq)].
  - rewrite Heq. destruct (Z.max_spec v (f c)) as [[_ ->] | [_ ->]].
    + right. exists c. split; [now left | reflexivity].
    + now left.
  - right. exists ch. split; [now right | exact Heq].
Qed.

Lemma fold_min_pick (f : Node -> Z) (l : list Node) :
  forall v,
    fold_left (fun v ch => Z.min (f ch) v) l v = v \/
    exists ch, In ch l /\ fold_left (fun v ch => Z.min (f ch) v) l v = f ch.
Proof.
  induction l as [|c rest IH]; intros v; cbn [fold_left]; [now left|].
  destruct (IH (Z.min (f c) v)) as [Heq | (ch & Hin & Heq)].
  - rewrite Heq. destruct (Z.min_spec (f c) v) as [[_ ->] | [_ ->]].
    + right. exists c. split; [now left | reflexivity].
    + now left.
  - right. exists ch. split; [now right | exact Heq].
Qed.

Lemma minimax_is_leaf node :
  forall is_max,
    well_formed node = true ->
    Forall in_range (leaf_evals node) ->
    In (minimax node is_max) (leaf_evals node).
Proof.
  induction node as [name eval | name child_nodes IH] using Node_rose_ind;
    intros is_max Hwf Hleaves.
  - now left.
  - cbn [well_formed] in Hwf. apply andb_true_iff in Hwf as [Hne Hwf].
    rewrite forallb_forall in Hwf.
    cbn [leaf_evals] in *. apply Forall_flat_map_children in Hleaves.
    rewrite Forall_forall in IH, Hleaves.
    assert (Hrange : forall ch m, In ch child_nodes -> in_range (minimax ch m)).
    { intros ch m Hin. apply minimax_in_range. auto. }
    assert (Hfirst : exists c rest, child_nodes = c :: rest).
    { destruct child_nodes; [discriminate | eauto]. }
    destruct Hfirst as (c & rest & Hc).
    assert (Hcin : In c child_nodes) by (rewrite Hc; now left).
    assert (Hpick : exists ch, In ch child_nodes /\
                               minimax (InnerNode name child_nodes) is_max =
                               minimax ch (negb is_max)).
    { cbn [minimax]. destruct is_max; cbn [negb].
      - destruct (fold_max_pick (fun ch => minimax ch false) child_nodes MIN_VALUE)
          as [Heq | Hex]; [|exact Hex].
        exists c. split; [exact Hcin|].
        pose proof (fold_max_ge_elem (fun ch => minimax ch false)
                      child_nodes MIN_VALUE c Hcin) as Hge.
        cbv beta in Hge.
        pose proof (Hrange c false Hcin) as Hr. unfold in_range in Hr. lia.
      - destruct (fold_min_pick (fun ch => minimax ch true) child_nodes MAX_VALUE)
          as [Heq | Hex]; [|exact Hex].
        exists c. split; [exact Hcin|].
        pose proof (fold_min_le_elem (fun ch => minimax ch true)
                      child_nodes MAX_VALUE c Hcin) as Hle.
        cbv beta in Hle.
        pose proof (Hrange c true Hcin) as Hr. unfold in_range in Hr. lia. }
    destruct Hpick as (ch & Hin & Heq). rewrite Heq.
    apply in_flat_map. exists ch. split; [exact Hin|].
    apply IH; auto.
Qed.

(** C10. For every well-formed tree (every node that is not a leaf has at
    least one child) whose leaf values all lie strictly between MIN_VALUE
    and MAX_VALUE, the value returned by [alpha_beta_root] is the eval of
    some leaf of the tree. *)
Theorem alpha_beta_root_returns_a_leaf :
  forall node is_max,
    well_formed node = true ->
    Forall (fun e => MIN_VALUE < e < MAX_VALUE) (leaf_evals node) ->
    In (fst (alpha_beta_root node is_max)) (leaf_evals node).
Proof.
  intros node is_max Hwf Hleaves.
  assert (Hrange : Forall in_range (leaf_evals node)).
  { eapply Forall_impl; [|exact Hleaves]. unfold in_range. cbv beta. lia. }
  rewrite alpha_beta_root_exact by now apply minimax_in_range.
  now apply minimax_is_leaf.
Qed.

Lemma alpha_beta_root_returns_a_leaf_witness :
  well_formed tree_3_5 = true /\
  Forall (fun e => MIN_VALUE < e < MAX_VALUE) (leaf_evals tree_3_5) /\
  In (fst (alpha_beta_root tree_3_5 true)) (leaf_evals tree_3_5).
Proof.
  assert (H : Forall (fun e => MIN_VALUE < e < MAX_VALUE) (leaf_evals tree_3_5)).
  { repeat constructor; unfold MIN_VALUE, MAX_VALUE; lia. }
  split; [reflexivity|]. split; [exact H|].
  apply (alpha_beta_root_returns_a_leaf tree_3_5 true eq_refl H).
Defined.

(** ** Nodes without children *)

(** C7, as the code has it.  On a node that is not a leaf and has no child
    [alpha_beta] raises nothing: the loop body never runs and the initial
    [v] is returned, MIN_VALUE when maximizing and MAX_VALUE when
    minimizing. *)
Theorem alpha_beta_childless_returns_sentinel :
  forall name alpha beta spaces verbose,
    fst (alpha_beta (InnerNode name []) alpha beta true spaces verbose) = MIN_VALUE /\
    fst (alpha_beta (InnerNode name []) alpha beta false spaces verbose) = MAX_VALUE.
Proof.
  intros. split; reflexivity.
Qed.

(** C7 as stated fails: the search of a childless root ends normally, with
    MIN_VALUE as its value and the entry and return lines printed. *)
Lemma alpha_beta_childless_no_error :
  alpha_beta_root tree_childless true =
  (MIN_VALUE, [PrNode [] name_A MIN_VALUE MAX_VALUE true;
               PrReturn [] name_A MIN_VALUE]).
Proof. reflexivity. Qed.

(** ** Cut-offs *)

(** C2. In either loop of [alpha_beta], with [ch] the child being
    processed, [rest] its later siblings and [v], [alpha], [beta] the loop
    variables: if [beta <= alpha] holds once [ch] is processed, the loop
    ends there.  The value is the [v] just computed and the output is that
    of the call on [ch] followed by the node's own update and cut-off
    lines; [rest] takes no part: no call is made on any of its nodes. *)
Theorem cutoff_skips_later_siblings :
  forall (rec : Node -> Z -> Z -> Z * list line) spaces name verbose
         ch rest v alpha beta,
    (let v' := Z.max v (fst (rec ch alpha beta)) in
     let alpha' := if v' >? alpha then v' else alpha in
     beta <= alpha' ->
     max_loop rec spaces name verbose (ch :: rest) v alpha beta =
     (v', snd (rec ch alpha beta)
            ++ (if v' >? alpha
                then say verbose (PrUpdAlpha spaces name alpha v') else [])
            ++ say verbose (PrBETAcut spaces alpha' beta)))
    /\
    (let v' := Z.min (fst (rec ch alpha beta)) v in
     let beta' := if v' <? beta then v' else beta in
     beta' <= alpha ->
     min_loop rec spaces name verbose (ch :: rest) v alpha beta =
     (v', snd (rec ch alpha beta)
            ++ (if v' <? beta
                then say verbose (PrUpdBeta spaces name alpha v') else [])
            ++ say verbose (PrALPHAcut spaces alpha beta'))).
Proof.
  intros rec spaces name verbose ch rest v alpha beta. split.
  - cbv zeta. intros Hcut. cbn [max_loop].
    destruct (rec ch alpha beta) as [ab out]. cbn [fst snd] in *.
    destruct (Z.max v ab >? alpha); cbn iota beta.
    + destruct (Z.leb_spec beta (Z.max v ab)); [reflexivity | lia].
    + destruct (Z.leb_spec beta alpha); [reflexivity | lia].
  - cbv zeta. intros Hcut. cbn [min_loop].
    destruct (rec ch alpha beta) as [ab out]. cbn [fst snd] in *.
    destruct (Z.min ab v <? beta); cbn iota beta.
    + destruct (Z.leb_spec (Z.min ab v) alpha); [reflexivity | lia].
    + destruct (Z.leb_spec beta alpha); [reflexivity | lia].
Qed.

Lemma cutoff_skips_later_siblings_witness :
  (MAX_VALUE <= MAX_VALUE /\ 2 <= 3) /\
  max_loop (call_child false) [] name_A true
    [LeafNode [66] 2; LeafNode [67] 9] MAX_VALUE 3 MAX_VALUE =
  (MAX_VALUE, [PrLeaf (indent []) [66] 2;
               PrUpdAlpha [] name_A 3 MAX_VALUE;
               PrBETAcut [] MAX_VALUE MAX_VALUE]) /\
  min_loop (call_child false) [] name_A true
    [LeafNode [66] 2; LeafNode [67] 9] MAX_VALUE 3 MAX_VALUE =
  (2, [PrLeaf (indent []) [66] 2;
       PrUpdBeta [] name_A 3 2;
       PrALPHAcut [] 3 2]).
Proof.
  destruct (cutoff_skips_later_siblings (call_child false) [] name_A true
              (LeafNode [66] 2) [LeafNode [67] 9] MAX_VALUE 3 MAX_VALUE)
    as [Hmax Hmin].
  split; [split; [reflexivity | discriminate]|].
  split.
  - apply Hmax. discriminate.
  - apply Hmin. discriminate.
Defined.

(** Seen from the node: when the cut-off condition holds at the end of the
    search of a node with children [pre ++ [ch]], any siblings put after
    [ch] change neither the value nor a single printed line. *)
Lemma max_loop_cons rec spaces name verbose ch rest v alpha beta :
  max_loop rec spaces name verbose (ch :: rest) v alpha beta =
  let v' := Z.max v (fst (rec ch alpha beta)) in
  let alpha' := Z.max alpha v' in
  let out := snd (rec ch alpha beta)
             ++ (if v' >? alpha
                 then say verbose (PrUpdAlpha spaces name alpha v') else []) in
  if beta <=? alpha'
  then (v', out ++ say verbose (PrBETAcut spaces alpha' beta))
  else (fst (max_loop rec spaces name verbose rest v' alpha' beta),
        out ++ snd (max_loop rec spaces name verbose rest v' alpha' beta)).
Proof.
  cbn [max_loop]. destruct (rec ch alpha beta) as [ab out]. cbn [fst snd].
  cbv zeta. rewrite <- (gtb_max (Z.max v ab) alpha).
  destruct (Z.max v ab >? alpha); cbn iota beta;
    destruct (beta <=? _); rewrite <- ?app_assoc; try reflexivity;
    destruct (max_loop rec spaces name verbose rest _ _ beta); reflexivity.
Qed.

Lemma min_loop_cons rec spaces name verbose ch rest v alpha beta :
  min_loop rec spaces name verbose (ch :: rest) v alpha beta =
  let v' := Z.min (fst (rec ch alpha beta)) v in
  let beta' := Z.min beta v' in
  let out := snd (rec ch alpha beta)
             ++ (if v' <? beta
                 then say verbose (PrUpdBeta spaces name alpha v') else []) in
  if beta' <=? alpha
  then (v', out ++ say verbose (PrALPHAcut spaces alpha beta'))
  else (fst (min_loop rec spaces name verbose rest v' alpha beta'),
        out ++ snd (min_loop rec spaces name verbose rest v' alpha beta')).
Proof.
  cbn [min_loop]. destruct (rec ch alpha beta) as [ab out]. cbn [fst snd].
  cbv zeta. rewrite <- (ltb_min (Z.min ab v) beta).
  destruct (Z.min ab v <? beta); cbn iota beta;
    destruct (_ <=? alpha); rewrite <- ?app_assoc; try reflexivity;
    destruct (min_loop rec spaces name verbose rest _ alpha _); reflexivity.
Qed.

Lemma max_loop_later_siblings_unused rec spaces name verbose ch rest beta pre :
  forall v alpha,
    beta <= Z.max alpha
              (fst (max_loop rec spaces name verbose (pre ++ [ch]) v alpha beta)) ->
    max_loop rec spaces name verbose (pre ++ ch :: rest) v alpha beta =
    max_loop rec spaces name verbose (pre ++ [ch]) v alpha beta.
Proof.
  induction pre as [|p pre IH]; intros v alpha Hcut; cbn [app] in *;
    rewrite !max_loop_cons; rewrite max_loop_cons in Hcut; cbv zeta in *.
  - destruct (Z.leb_spec beta (Z.max alpha (Z.max v (fst (rec ch alpha beta)))));
      [reflexivity|].
    cbn [max_loop fst] in Hcut. lia.
  - destruct (Z.leb_spec beta (Z.max alpha (Z.max v (fst (rec p alpha beta)))));
      [reflexivity|].
    cbn [fst] in Hcut. rewrite IH by lia. reflexivity.
Qed.

Lemma min_loop_later_siblings_unused rec spaces name verbose ch rest alpha pre :
  forall v beta,
    Z.min beta
      (fst (min_loop rec spaces name verbose (pre ++ [ch]) v alpha beta)) <= alpha ->
    min_loop rec spaces name verbose (pre ++ ch :: rest) v alpha beta =
    min_loop rec spaces name verbose (pre ++ [ch]) v alpha beta.
Proof.
  induction pre as [|p pre IH]; intros v beta Hcut; cbn [app] in *;
    rewrite !min_loop_cons; rewrite min_loop_cons in Hcut; cbv zeta in *.
  - destruct (Z.leb_spec (Z.min beta (Z.min (fst (rec ch alpha beta)) v)) alpha);
      [reflexivity|].
    cbn [min_loop fst] in Hcut. lia.
  - destruct (Z.leb_spec (Z.min beta (Z.min (fst (rec p alpha beta)) v)) alpha);
      [reflexivity|].
    cbn [fst] in Hcut. rewrite IH by lia. reflexivity.
Qed.

Lemma alpha_beta_later_siblings_unused name pre ch rest alpha beta is_max spaces verbose :
  let r := fst (alpha_beta (InnerNode name (pre ++ [ch]))
                  alpha beta is_max spaces verbose) in
  (if is_max then beta <= Z.max alpha r else Z.min beta r <= alpha) ->
  alpha_beta (InnerNode name (pre ++ ch :: rest)) alpha beta is_max spaces verbose =
  alpha_beta (InnerNode name (pre ++ [ch])) alpha beta is_max spaces verbose.
Proof.
  cbv zeta. intros Hcut. cbn [alpha_beta] in *. destruct is_max.
  - rewrite max_loop_later_siblings_unused; [reflexivity|].
    destruct (max_loop _ spaces name verbose (pre ++ [ch]) _ _ _). exact Hcut.
  - rewrite min_loop_later_siblings_unused; [reflexivity|].
    destruct (min_loop _ spaces name verbose (pre ++ [ch]) _ _ _). exact Hcut.
Qed.

(** ** The cut-off of the leaves 3, 5, 2, 9 *)

(** C8. The tree of depth 2 and branching factor 2 generated from the leaf
    values 3, 5, 2, 9 has a maximizing root over two minimizing nodes.
    [alpha_beta_root] returns 3 on it, which is also its exhaustive value.
    The second minimizing node is entered with alpha = 3, reads the leaf 2,
    lowers beta to 2 and leaves its loop at the [beta <= alpha] test (the
    line printed there reads ALPHA cut-off; the comment on that [break]
    calls it a beta cut-off).  Three of the four leaves are evaluated, in
    the order 3, 5, 2; the leaf 9 is not. *)
Theorem cutoff_on_3_5_2_9 :
  forall (str_upper : str -> str) (random_integers : nat -> Z)
         (fuel : nat) (name : str) (k : nat),
    let root := tree_3_5_2_9 str_upper name in
    let second := name ++ [DASH; 98] in
    gen_tree str_upper random_integers (3 + fuel) 2 true 2 name
      (mk_state (Some [3; 5; 2; 9]) k) =
    (Ret root, mk_state (Some []) k) /\
    fst (alpha_beta_root root true) = 3 /\
    minimax root true = 3 /\
    (exists before,
        snd (alpha_beta_root root true) =
        before ++
        [PrNode (indent []) second 3 MAX_VALUE false;
         PrLeaf (indent (indent [])) (second ++ DASH :: str_upper [97]) 2;
         PrUpdBeta (indent []) second 3 2;
         PrALPHAcut (indent []) 3 2;
         PrReturn (indent []) second 2;
         PrReturn [] name 3]) /\
    leaves_printed (snd (alpha_beta_root root true)) = [3; 5; 2] /\
    (length (leaves_printed (snd (alpha_beta_root root true))) < 4)%nat /\
    ~ In 9 (leaves_printed (snd (alpha_beta_root root true))).
Proof.
  intros str_upper random_integers fuel name k root second.
  split; [reflexivity|].
  split; [reflexivity|]. split; [reflexivity|].
  split.
  { exists [PrNode [] name MIN_VALUE MAX_VALUE true;
            PrNode (indent []) (name ++ [DASH; 97]) MIN_VALUE MAX_VALUE false;
            PrLeaf (indent (indent []))
              ((name ++ [DASH; 97]) ++ DASH :: str_upper [97]) 3;
            PrUpdBeta (indent []) (name ++ [DASH; 97]) MIN_VALUE 3;
            PrLeaf (indent (indent []))
              ((name ++ [DASH; 97]) ++ DASH :: str_upper [98]) 5;
            PrReturn (indent []) (name ++ [DASH; 97]) 3;
            PrUpdAlpha [] name MIN_VALUE 3].
    reflexivity. }
  assert (Hleaves : leaves_printed (snd (alpha_beta_root root true)) = [3; 5; 2])
    by reflexivity.
  rewrite Hleaves. split; [reflexivity|]. split; [cbn; lia|].
  cbn. intros [H|[H|[H|[]]]]; discriminate.
Qed.

(* ------------------------------------------------------------------ *)
(** * Properties of gen_tree *)

Lemma firstn_plus {A : Type} (a b : nat) (l : list A) :
  firstn (a + b) l = firstn a l ++ firstn b (skipn a l).
Proof.
  revert l. induction a as [|a IH]; intros l; [reflexivity|].
  destruct l as [|x l]; cbn.
  - now rewrite firstn_nil.
  - now rewrite IH.
Qed.

Lemma chr_ord_a (i : Z) :
  0 <= i < MAX_BR_FACTOR -> chr (ord_a + i) = Ret [ord_a + i].
Proof.
  unfold chr, MAX_BR_FACTOR, CHR_RANGE, ord_a. intros Hi.
  destruct (Z.leb_spec 0 (97 + i)); [|lia].
  destruct (Z.ltb_spec (97 + i) 1114112); [reflexivity | lia].
Qed.

Lemma chr_out_of_range (i : Z) :
  MAX_BR_FACTOR <= i -> chr (ord_a + i) = Raise ValueError.
Proof.
  unfold chr, MAX_BR_FACTOR, CHR_RANGE, ord_a. intros Hi.
  destruct (Z.ltb_spec (97 + i) 1114112); [lia|].
  now rewrite andb_false_r.
Qed.

Lemma range_length (n : Z) : length (range n) = Z.to_nat n.
Proof. unfold range. now rewrite length_map, length_seq. Qed.

Lemma range_bounds (n : Z) : Forall (fun i => 0 <= i < n) (range n).
Proof.
  unfold range. apply Forall_forall. intros i Hi.
  apply in_map_iff in Hi as (j & <- & Hj). apply in_seq in Hj. lia.
Qed.

Lemma range_nonpositive (n : Z) : n <= 0 -> range n = [].
Proof.
  intros Hn. unfold range. replace (Z.to_nat n) with O by lia. reflexivity.
Qed.

Lemma range_positive (n : Z) : 1 <= n -> exists rest, range n = 0 :: rest.
Proof.
  intros Hn. unfold range.
  destruct (Z.to_nat n) as [|m] eqn:E; [lia|].
  cbn. eauto.
Qed.

Lemma range_succ (n : Z) : 0 <= n -> range (n + 1) = range n ++ [n].
Proof.
  intros Hn. unfold range.
  replace (Z.to_nat (n + 1)) with (S (Z.to_nat n)) by lia.
  rewrite seq_S, map_app. cbn [map Nat.add]. now rewrite Z2Nat.id.
Qed.

Section GenTreeFacts.
Variable str_upper : str -> str.
Variable random_integers : nat -> Z.

(** One unfolding of [gen_tree str_upper random_integers] below the leaves. *)
Lemma gen_tree_inner fuel depth is_max br_factor name st :
  depth <> 0 ->
  gen_tree str_upper random_integers (S fuel) depth is_max br_factor name st =
  match
    gen_loop str_upper
      (fun child_name =>
         gen_tree str_upper random_integers fuel (depth - 1) (negb is_max) br_factor child_name)
      is_max name (range br_factor) [] st
  with
  | (Ret child_nodes, st') => (Ret (InnerNode name child_nodes), st')
  | (Raise e, st') => (Raise e, st')
  | (OutOfFuel, st') => (OutOfFuel, st')
  end.
Proof.
  intros Hd. cbn [gen_tree].
  destruct (Z.eqb_spec depth 0); [contradiction | reflexivity].
Qed.

(** The loop over a concatenation of index lists. *)
Lemma gen_loop_app rec is_max name indices1 indices2 :
  forall child_nodes st,
    gen_loop str_upper rec is_max name (indices1 ++ indices2) child_nodes st =
    match gen_loop str_upper rec is_max name indices1 child_nodes st with
    | (Ret child_nodes', st') =>
        gen_loop str_upper rec is_max name indices2 child_nodes' st'
    | (Raise e, st') => (Raise e, st')
    | (OutOfFuel, st') => (OutOfFuel, st')
    end.
Proof.
  induction indices1 as [|i indices1 IH]; intros child_nodes st;
    cbn [app gen_loop]; [reflexivity|].
  destruct (chr (ord_a + i)) as [child_suffix|e|]; try reflexivity.
  destruct (rec _ st) as [[child_node|e|] st']; try reflexivity.
  apply IH.
Qed.

(** *** Enough values, or too few *)

Lemma gen_loop_fills rec is_max name n d b indices :
  (1 <= n)%nat ->
  (forall child_name, fills n d b (rec child_name)) ->
  Forall (fun i => 0 <= i < MAX_BR_FACTOR) indices ->
  forall child_nodes lv k,
    ((length indices * n <= length lv)%nat ->
     exists new_nodes,
       gen_loop str_upper rec is_max name indices child_nodes (mk_state (Some lv) k) =
       (Ret (child_nodes ++ new_nodes),
        mk_state (Some (skipn (length indices * n) lv)) k) /\
       length new_nodes = length indices /\
       forallb (uniform d b) new_nodes = true /\
       flat_map leaf_evals new_nodes = firstn (length indices * n) lv) /\
    ((length lv < length indices * n)%nat ->
     gen_loop str_upper rec is_max name indices child_nodes (mk_state (Some lv) k) =
     (Raise IndexError, mk_state (Some []) k)).
Proof.
  intros Hn Hrec Hall.
  induction Hall as [|i indices Hi _ IH]; intros child_nodes lv k.
  - split.
    + intros _. exists []. cbn. rewrite app_nil_r. auto.
    + cbn. lia.
  - cbn [gen_loop length]. rewrite (chr_ord_a i Hi).
    set (child_name := name ++ [DASH] ++ _).
    destruct (Hrec child_name lv k) as [Hok Hfail].
    destruct (Nat.le_gt_cases n (length lv)) as [Hlen|Hlen].
    + destruct (Hok Hlen) as (t & -> & Hunif & Hevals).
      destruct (IH (child_nodes ++ [t]) (skipn n lv) k) as [IHok IHfail].
      rewrite length_skipn in IHok, IHfail.
      split; intros Htot.
      * destruct IHok as (new_nodes & -> & Hcount & Hall' & Hnew);
          [cbn in Htot; lia|].
        exists (t :: new_nodes). rewrite <- app_assoc. cbn [app].
        rewrite skipn_skipn.
        replace (length indices * n + n)%nat
          with (S (length indices) * n)%nat by lia.
        repeat split.
        -- cbn. now rewrite Hcount.
        -- cbn. now rewrite Hunif, Hall'.
        -- cbn [flat_map]. rewrite Hevals, Hnew.
           replace (S (length indices) * n)%nat
             with (n + length indices * n)%nat by lia.
           now rewrite firstn_plus.
      * apply IHfail. cbn in Htot. lia.
    + rewrite (Hfail Hlen). split; intros Htot; [cbn in Htot; lia | reflexivity].
Qed.

Lemma gen_tree_leaf_fills fuel is_max br_factor name :
  fills 1 0 (Z.to_nat br_factor)
    (gen_tree str_upper random_integers (S fuel) 0 is_max br_factor name).
Proof.
  intros lv k. cbn. destruct lv as [|val rest]; split; cbn; intros H;
    try lia; eauto.
Qed.

Lemma gen_tree_fills br_factor :
  1 <= br_factor <= MAX_BR_FACTOR ->
  forall (d fuel : nat) is_max name,
    (d < fuel)%nat ->
    fills (Z.to_nat br_factor ^ d) d (Z.to_nat br_factor)
      (gen_tree str_upper random_integers fuel (Z.of_nat d) is_max br_factor name).
Proof.
  intros Hb. induction d as [|d IH]; intros fuel is_max name Hfuel;
    (destruct fuel as [|fuel]; [lia|]).
  - apply gen_tree_leaf_fills.
  - intros lv k. rewrite gen_tree_inner by lia.
    replace (Z.of_nat (S d) - 1) with (Z.of_nat d) by lia.
    assert (Hpos : (1 <= Z.to_nat br_factor ^ d)%nat).
    { pose proof (Nat.pow_nonzero (Z.to_nat br_factor) d). lia. }
    assert (Hrange : Forall (fun i => 0 <= i < MAX_BR_FACTOR) (range br_factor)).
    { eapply Forall_impl; [|apply range_bounds]. cbv beta. lia. }
    destruct (gen_loop_fills
                (fun child_name =>
                   gen_tree str_upper random_integers fuel (Z.of_nat d) (negb is_max) br_factor child_name)
                is_max name _ d (Z.to_nat br_factor) (range br_factor) Hpos
                (fun child_name => IH fuel (negb is_max) child_name
                                      ltac:(lia))
                Hrange [] lv k) as [Hok Hfail].
    rewrite range_length in Hok, Hfail.
    change (Z.to_nat br_factor ^ S d)%nat
      with (Z.to_nat br_factor * Z.to_nat br_factor ^ d)%nat.
    split; intros Hlen.
    + destruct (Hok Hlen) as (new_nodes & -> & Hcount & Hall & Hevals).
      exists (InnerNode name new_nodes). cbn [app]. split; [reflexivity|].
      split; [|exact Hevals].
      cbn [uniform]. rewrite Hall, Hcount, Nat.eqb_refl.
      reflexivity.
    + now rewrite (Hfail Hlen).
Qed.
(** *** Values go to the leaves in order *)

Lemma gen_loop_in_order rec is_max name indices :
  (forall child_name, in_order (rec child_name)) ->
  forall child_nodes lv k result st',
    gen_loop str_upper rec is_max name indices child_nodes (mk_state (Some lv) k) =
    (Ret result, st') ->
    exists new_nodes lv',
      result = child_nodes ++ new_nodes /\
      st' = mk_state (Some lv') k /\
      lv = flat_map leaf_evals new_nodes ++ lv'.
Proof.
  intros Hrec.
  induction indices as [|i indices IH]; intros child_nodes lv k result st' Hrun;
    cbn [gen_loop] in Hrun.
  - inversion Hrun; subst. exists [], lv. now rewrite app_nil_r.
  - destruct (chr (ord_a + i)) as [child_suffix|e|]; try discriminate.
    match type of Hrun with
    | context [rec ?nm ?st] => destruct (rec nm st) as [[t|e|] st1] eqn:Hcall
    end; try discriminate.
    apply Hrec in Hcall as (lv1 & -> & ->).
    apply IH in Hrun as (new_nodes & lv' & -> & -> & ->).
    exists (t :: new_nodes), lv'. cbn [flat_map]. rewrite <- !app_assoc.
    repeat split; reflexivity.
Qed.

Lemma gen_tree_in_order fuel :
  forall depth is_max br_factor name,
    in_order (gen_tree str_upper random_integers fuel depth is_max br_factor name).
Proof.
  induction fuel as [|fuel IH]; intros depth is_max br_factor name lv k t st' Hrun.
  - discriminate.
  - cbn [gen_tree] in Hrun. destruct (depth =? 0).
    + cbn in Hrun. destruct lv as [|val rest]; [discriminate|].
      inversion Hrun; subst. now exists rest.
    + match type of Hrun with
      | context [gen_loop ?u ?r ?m ?nm ?ix ?acc ?st] =>
          destruct (gen_loop u r m nm ix acc st) as [[result|e|] st1] eqn:Hloop
      end; try discriminate.
      inversion Hrun; subst.
      apply gen_loop_in_order in Hloop as (new_nodes & lv' & -> & -> & ->);
        [|intros child_name; apply IH].
      now exists lv'.
Qed.

(** *** More fuel changes nothing once a call has ended *)

Lemma gen_loop_more_fuel rec rec' is_max name indices :
  (forall child_name st r st',
      rec child_name st = (r, st') -> ended r -> rec' child_name st = (r, st')) ->
  forall child_nodes st r st',
    gen_loop str_upper rec is_max name indices child_nodes st = (r, st') ->
    ended r ->
    gen_loop str_upper rec' is_max name indices child_nodes st = (r, st').
Proof.
  intros Hrec.
  induction indices as [|i indices IH]; intros child_nodes st r st' Hrun Hend;
    cbn [gen_loop] in *; [exact Hrun|].
  destruct (chr (ord_a + i)) as [child_suffix|e|]; try exact Hrun.
  match type of Hrun with
  | context [rec ?nm ?s0] => destruct (rec nm s0) as [[t|e|] st1] eqn:Hcall
  end.
  - rewrite (Hrec _ _ _ _ Hcall) by discriminate. now apply IH.
  - rewrite (Hrec _ _ _ _ Hcall) by discriminate. exact Hrun.
  - inversion Hrun; subst. now contradiction Hend.
Qed.

Lemma gen_tree_more_fuel fuel :
  forall fuel' depth is_max br_factor name st r st',
    (fuel <= fuel')%nat ->
    gen_tree str_upper random_integers fuel depth is_max br_factor name st = (r, st') ->
    ended r ->
    gen_tree str_upper random_integers fuel' depth is_max br_factor name st = (r, st').
Proof.
  induction fuel as [|fuel IH];
    intros fuel' depth is_max br_factor name st r st' Hle Hrun Hend.
  - inversion Hrun; subst. now contradiction Hend.
  - destruct fuel' as [|fuel']; [lia|].
    cbn [gen_tree] in *. destruct (depth =? 0); [exact Hrun|].
    match type of Hrun with
    | context [gen_loop ?u ?r ?m ?nm ?ix ?acc ?s0] =>
        destruct (gen_loop u r m nm ix acc s0) as [res st1] eqn:Hloop
    end.
    assert (Hres : ended res).
    { destruct res; try discriminate. inversion Hrun; subst.
      now contradiction Hend. }
    erewrite gen_loop_more_fuel; [exact Hrun | | exact Hloop | exact Hres].
    intros child_name s0 r0 s1 Hcall Hr0.
    apply (IH fuel'); [lia | exact Hcall | exact Hr0].
Qed.

(** *** A leaf asked of an empty list *)

Lemma leaf_from_empty_raises fuel depth is_max br_factor name st :
  leaf_from_empty str_upper random_integers fuel depth is_max br_factor name st ->
  exists k,
    gen_tree str_upper random_integers fuel depth is_max br_factor name st =
    (Raise IndexError, mk_state (Some []) k).
Proof.
  induction 1 as [fuel is_max br_factor name k
                 | fuel depth is_max br_factor name st before i after
                     child_nodes st1 child_suffix Hd Hrange Hloop Hchr _ IH].
  - exists k. reflexivity.
  - destruct IH as (k & IH). exists k.
    rewrite gen_tree_inner by exact Hd.
    rewrite Hrange, gen_loop_app, Hloop. cbn [gen_loop].
    rewrite Hchr. cbv beta iota zeta. rewrite IH. reflexivity.
Qed.

(** *** No check of the parameters *)

Lemma gen_tree_no_children fuel depth is_max br_factor name st :
  depth <> 0 -> br_factor <= 0 ->
  gen_tree str_upper random_integers (S fuel) depth is_max br_factor name st =
  (Ret (InnerNode name []), st).
Proof.
  intros Hd Hb. rewrite gen_tree_inner by exact Hd.
  now rewrite range_nonpositive.
Qed.

Lemma gen_tree_negative_depth fuel :
  forall depth is_max br_factor name st,
    depth < 0 -> 1 <= br_factor ->
    gen_tree str_upper random_integers fuel depth is_max br_factor name st =
    (OutOfFuel, st).
Proof.
  induction fuel as [|fuel IH]; intros depth is_max br_factor name st Hd Hb.
  - reflexivity.
  - rewrite gen_tree_inner by lia.
    destruct (range_positive br_factor Hb) as (rest & ->).
    cbn [gen_loop]. rewrite (chr_ord_a 0) by (unfold MAX_BR_FACTOR; cbn; lia).
    rewrite IH by lia. reflexivity.
Qed.

(** *** A branching factor above MAX_BR_FACTOR *)

Lemma gen_tree_chr_fails fuel is_max br_factor name lv k :
  MAX_BR_FACTOR < br_factor ->
  (Z.to_nat MAX_BR_FACTOR <= length lv)%nat ->
  gen_tree str_upper random_integers (S (S fuel)) 1 is_max br_factor name
    (mk_state (Some lv) k) =
  (Raise ValueError, mk_state (Some (skipn (Z.to_nat MAX_BR_FACTOR) lv)) k).
Proof.
  intros Hb Hlen. rewrite gen_tree_inner by lia.
  assert (HM : 0 <= MAX_BR_FACTOR) by (unfold MAX_BR_FACTOR; cbn; lia).
  assert (Hsplit : exists later,
             range br_factor = range MAX_BR_FACTOR ++ MAX_BR_FACTOR :: later).
  { unfold range.
    replace (Z.to_nat br_factor)
      with (Z.to_nat MAX_BR_FACTOR + S (Z.to_nat (br_factor - MAX_BR_FACTOR - 1)))%nat
      by lia.
    rewrite seq_app, map_app. cbn [seq map Nat.add].
    rewrite Z2Nat.id by exact HM. eauto. }
  destruct Hsplit as (later & ->). rewrite gen_loop_app.
  destruct (gen_loop_fills
              (fun child_name =>
                 gen_tree str_upper random_integers (S fuel) (1 - 1)
                   (negb is_max) br_factor child_name)
              is_max name 1 0 (Z.to_nat br_factor) (range MAX_BR_FACTOR)
              (le_n 1)
              (fun child_name =>
                 gen_tree_leaf_fills fuel (negb is_max) br_factor child_name)
              (range_bounds MAX_BR_FACTOR) [] lv k) as [Hok _].
  rewrite range_length, Nat.mul_1_r in Hok.
  destruct (Hok Hlen) as (new_nodes & -> & _).
  cbn [gen_loop]. rewrite chr_out_of_range by lia. reflexivity.
Qed.
End GenTreeFacts.

(** ** Leaf count *)

(** C3, as the code has it.  For every depth D >= 0, every branching
    factor B >= 1 that is at most MAX_BR_FACTOR = 1114015 when D > 0 (so
    that every child suffix chr(ord('a') + i) exists), and every supplied
    sequence of at least B^D values, [gen_tree] returns a tree and removes
    exactly the first B^D values from the sequence; the tree has exactly
    B^D leaves, all at depth D, and every node above them has exactly B
    children.  Any fuel above D is enough. *)
Theorem gen_tree_leaf_count :
  forall (str_upper : str -> str) (random_integers : nat -> Z)
         (fuel : nat) (D : Z) (is_max : bool) (B : Z) (name : str)
         (lv : list Z) (k : nat),
    0 <= D -> 1 <= B -> (D = 0 \/ B <= MAX_BR_FACTOR) ->
    B ^ D <= Z.of_nat (length lv) ->
    (Z.to_nat D < fuel)%nat ->
    exists t,
      gen_tree str_upper random_integers fuel D is_max B name
        (mk_state (Some lv) k) =
      (Ret t, mk_state (Some (skipn (Z.to_nat (B ^ D)) lv)) k) /\
      Z.of_nat (length lv) - Z.of_nat (length (skipn (Z.to_nat (B ^ D)) lv)) = B ^ D /\
      Z.of_nat (length (leaf_evals t)) = B ^ D /\
      uniform (Z.to_nat D) (Z.to_nat B) t = true.
Proof.
  intros str_upper random_integers fuel D is_max B name lv k HD HB Hchr Hlen Hfuel.
  assert (Hpow : Z.to_nat (B ^ D) = (Z.to_nat B ^ Z.to_nat D)%nat)
    by (apply Z2Nat.inj_pow; lia).
  assert (Hpos : 0 <= B ^ D) by (apply Z.pow_nonneg; lia).
  assert (Hfills : fills (Z.to_nat B ^ Z.to_nat D) (Z.to_nat D) (Z.to_nat B)
                     (gen_tree str_upper random_integers fuel D is_max B name)).
  { destruct (Z.eq_dec D 0) as [->|HD0].
    - destruct fuel as [|fuel]; [lia|]. apply gen_tree_leaf_fills.
    - rewrite <- (Z2Nat.id D HD) at 3.
      apply gen_tree_fills; [lia | exact Hfuel]. }
  rewrite Hpow.
  destruct (Hfills lv k) as [Hok _].
  destruct Hok as (t & Hrun & Hunif & Hevals); [lia|].
  exists t. split; [exact Hrun|].
  split; [rewrite length_skipn; lia|].
  split; [rewrite Hevals, length_firstn; lia | exact Hunif].
Qed.

Lemma gen_tree_leaf_count_witness :
  exists t,
    gen_tree ascii_upper zeros 3 2 true 2 name_A (supplied [3; 5; 2; 9]) =
    (Ret t, mk_state (Some (skipn (Z.to_nat (2 ^ 2)) [3; 5; 2; 9])) 0) /\
    Z.of_nat (length [3; 5; 2; 9])
    - Z.of_nat (length (skipn (Z.to_nat (2 ^ 2)) [3; 5; 2; 9])) = 2 ^ 2 /\
    Z.of_nat (length (leaf_evals t)) = 2 ^ 2 /\
    uniform (Z.to_nat 2) (Z.to_nat 2) t = true.
Proof.
  apply (gen_tree_leaf_count ascii_upper zeros 3 2 true 2 name_A [3; 5; 2; 9] 0).
  - lia.
  - lia.
  - right. unfold MAX_BR_FACTOR, CHR_RANGE, ord_a. lia.
  - cbn. lia.
  - cbn. lia.
Defined.

Lemma skipn_repeat {A : Type} (x : A) (a b : nat) :
  skipn a (repeat x (a + b)) = repeat x b.
Proof.
  induction a as [|a IH]; [reflexivity | exact IH].
Qed.

(** C3 as stated fails: with B = 1114016, D = 1 and 1114016 values
    supplied, the suffix of the last child is chr(97 + 1114015), which does
    not exist; ValueError is raised after 1114015 leaves were made, and one
    value is left in the list. *)
Lemma gen_tree_leaf_count_fails :
  0 <= 1 /\ 1 <= 1114016 /\
  1114016 ^ 1 <= Z.of_nat (length (repeat 0 (Z.to_nat 1114016))) /\
  gen_tree ascii_upper zeros 2 1 true 1114016 name_A
    (supplied (repeat 0 (Z.to_nat 1114016))) =
  (Raise ValueError, supplied [0]).
Proof.
  split; [lia|]. split; [lia|].
  split; [rewrite repeat_length; lia|].
  unfold supplied. rewrite gen_tree_chr_fails.
  - replace (Z.to_nat 1114016) with (Z.to_nat MAX_BR_FACTOR + 1)%nat
      by (unfold MAX_BR_FACTOR, CHR_RANGE, ord_a; lia).
    rewrite skipn_repeat. reflexivity.
  - unfold MAX_BR_FACTOR, CHR_RANGE, ord_a. lia.
  - rewrite repeat_length. unfold MAX_BR_FACTOR, CHR_RANGE, ord_a. lia.
Qed.

(** ** Values in pre-order; determinism *)

(** With a list supplied, neither the random source nor the number of
    draws made so far has any part in a call: the same outcome and the same
    final list come out for any other source and count. *)
Lemma gen_loop_any_source str_upper rec1 rec2 is_max name indices :
  (forall child_name lv k1 k2 r st1,
      rec1 child_name (mk_state (Some lv) k1) = (r, st1) ->
      exists lv', st1 = mk_state (Some lv') k1 /\
                  rec2 child_name (mk_state (Some lv) k2) =
                  (r, mk_state (Some lv') k2)) ->
  forall child_nodes lv k1 k2 r st1,
    gen_loop str_upper rec1 is_max name indices child_nodes
      (mk_state (Some lv) k1) = (r, st1) ->
    exists lv', st1 = mk_state (Some lv') k1 /\
                gen_loop str_upper rec2 is_max name indices child_nodes
                  (mk_state (Some lv) k2) = (r, mk_state (Some lv') k2).
Proof.
  intros Hrec.
  induction indices as [|i indices IH]; intros child_nodes lv k1 k2 r st1 Hrun;
    cbn [gen_loop] in *.
  - inversion Hrun; subst. now exists lv.
  - destruct (chr (ord_a + i)) as [child_suffix|e|];
      try (inversion Hrun; subst; now exists lv).
    match type of Hrun with
    | context [rec1 ?nm ?s0] => destruct (rec1 nm s0) as [res st] eqn:Hcall
    end.
    apply (Hrec _ _ _ k2) in Hcall as (lv1 & -> & ->).
    destruct res as [t|e|];
      try (inversion Hrun; subst; now exists lv1).
    now apply IH.
Qed.

Lemma gen_tree_any_source str_upper random_integers1 random_integers2 fuel :
  forall depth is_max br_factor name lv k1 k2 r st1,
    gen_tree str_upper random_integers1 fuel depth is_max br_factor name
      (mk_state (Some lv) k1) = (r, st1) ->
    exists lv', st1 = mk_state (Some lv') k1 /\
                gen_tree str_upper random_integers2 fuel depth is_max br_factor
                  name (mk_state (Some lv) k2) = (r, mk_state (Some lv') k2).
Proof.
  induction fuel as [|fuel IH];
    intros depth is_max br_factor name lv k1 k2 r st1 Hrun.
  - inversion Hrun; subst. now exists lv.
  - cbn [gen_tree] in *. destruct (depth =? 0).
    + cbn in *. destruct lv as [|val rest]; inversion Hrun; subst.
      * now exists [].
      * now exists rest.
    + match type of Hrun with
      | context [gen_loop ?u ?rc ?m ?nm ?ix ?acc ?s0] =>
          destruct (gen_loop u rc m nm ix acc s0) as [res st] eqn:Hloop
      end.
      eapply (gen_loop_any_source _ _
                (fun child_name =>
                   gen_tree str_upper random_integers2 fuel (depth - 1)
                     (negb is_max) br_factor child_name))
        in Hloop as (lv' & -> & ->);
        [|intros child_name lv0 j1 j2 r0 s1; apply IH].
      exists lv'. destruct res; inversion Hrun; subst; auto.
Qed.

(** C4. When [gen_tree] is given a list of values and returns a tree, the
    i-th leaf of the tree, counted from the left (the order in which the
    leaves are created), holds the i-th value the list had at the start,
    for every i; and generating again from an equal list, with the same
    depth, is_max, br_factor and name, returns the same tree and leaves the
    same list, whatever the random source answers and however many numbers
    were drawn from it before: with a list supplied nothing is left to
    chance. *)
Theorem gen_tree_preorder_deterministic :
  forall (str_upper : str -> str) (random_integers : nat -> Z)
         (fuel : nat) (depth : Z) (is_max : bool) (br_factor : Z) (name : str)
         (lv : list Z) (k : nat) (t : Node) (st' : gen_state),
    gen_tree str_upper random_integers fuel depth is_max br_factor name
      (mk_state (Some lv) k) = (Ret t, st') ->
    (forall i, (i < length (leaf_evals t))%nat ->
               nth_error (leaf_evals t) i = nth_error lv i) /\
    (forall (random_integers2 : nat -> Z) (fuel2 k2 : nat) lv2 t2 st2,
        lv2 = lv ->
        gen_tree str_upper random_integers2 fuel2 depth is_max br_factor name
          (mk_state (Some lv2) k2) = (Ret t2, st2) ->
        t2 = t /\ leaf_values st2 = leaf_values st' /\
        drawn st' = k /\ drawn st2 = k2).
Proof.
  intros str_upper random_integers fuel depth is_max br_factor name lv k t st' Hrun.
  split.
  - intros i Hi.
    destruct (gen_tree_in_order _ _ _ _ _ _ _ _ _ _ _ Hrun) as (lv' & _ & ->).
    now rewrite nth_error_app1.
  - intros random_integers2 fuel2 k2 lv2 t2 st2 -> Hrun2.
    assert (Hend : forall t0 : Node, ended (Ret t0)) by (intros t0; discriminate).
    destruct (gen_tree_any_source str_upper random_integers random_integers2
                fuel depth is_max br_factor name lv k k2 (Ret t) st' Hrun)
      as (lv' & -> & Hrun1).
    pose proof (gen_tree_more_fuel _ _ _ (Nat.max fuel fuel2) _ _ _ _ _ _ _
                  (Nat.le_max_l fuel fuel2) Hrun1 (Hend t)) as H1.
    pose proof (gen_tree_more_fuel _ _ _ (Nat.max fuel fuel2) _ _ _ _ _ _ _
                  (Nat.le_max_r fuel fuel2) Hrun2 (Hend t2)) as H2.
    rewrite H1 in H2. inversion H2; subst. auto.
Qed.

Lemma gen_tree_preorder_deterministic_witness :
  gen_tree ascii_upper zeros 3 2 true 2 name_A (supplied [3; 5; 2; 9]) =
  (Ret (tree_3_5_2_9 ascii_upper name_A), supplied []) /\
  (forall i, (i < length (leaf_evals (tree_3_5_2_9 ascii_upper name_A)))%nat ->
             nth_error (leaf_evals (tree_3_5_2_9 ascii_upper name_A)) i =
             nth_error [3; 5; 2; 9] i) /\
  (forall (random_integers2 : nat -> Z) (fuel2 k2 : nat) lv2 t2 st2,
      lv2 = [3; 5; 2; 9] ->
      gen_tree ascii_upper random_integers2 fuel2 2 true 2 name_A
        (mk_state (Some lv2) k2) = (Ret t2, st2) ->
      t2 = tree_3_5_2_9 ascii_upper name_A /\
      leaf_values st2 = leaf_values (supplied []) /\
      drawn (supplied []) = 0%nat /\ drawn st2 = k2).
Proof.
  split; [reflexivity|].
  apply (gen_tree_preorder_deterministic ascii_upper zeros 3 2 true 2 name_A
           [3; 5; 2; 9] 0 (tree_3_5_2_9 ascii_upper name_A) (supplied [])).
  reflexivity.
Defined.

(** ** Running out of values *)

(** C5. Whenever a call of [gen_tree] comes to make a leaf while the
    supplied list is empty, it raises IndexError and the list is empty at
    that point (first part).  This is what happens when fewer than B^D
    values are supplied, for D >= 0 and, when D > 0, 1 <= B <=
    MAX_BR_FACTOR: every supplied value is taken first (second part).  In
    particular gen_tree(2, is_max, 2, name, [1, 2, 3]) raises IndexError
    and leaves the list empty (third part). *)
Theorem gen_tree_exhaustion :
  forall (str_upper : str -> str) (random_integers : nat -> Z),
    (forall (fuel : nat) (depth : Z) (is_max : bool) (br_factor : Z)
            (name : str) (st : gen_state),
        leaf_from_empty str_upper random_integers
          fuel depth is_max br_factor name st ->
        exists k,
          gen_tree str_upper random_integers fuel depth is_max br_factor name st =
          (Raise IndexError, mk_state (Some []) k)) /\
    (forall (fuel : nat) (D : Z) (is_max : bool) (B : Z) (name : str)
            (lv : list Z) (k : nat),
        0 <= D -> (D = 0 \/ 1 <= B <= MAX_BR_FACTOR) ->
        Z.of_nat (length lv) < B ^ D ->
        (Z.to_nat D < fuel)%nat ->
        gen_tree str_upper random_integers fuel D is_max B name
          (mk_state (Some lv) k) =
        (Raise IndexError, mk_state (Some []) k)) /\
    (forall (fuel : nat) (is_max : bool) (name : str) (k : nat),
        gen_tree str_upper random_integers (3 + fuel) 2 is_max 2 name
          (mk_state (Some [1; 2; 3]) k) =
        (Raise IndexError, mk_state (Some []) k)).
Proof.
  intros str_upper random_integers. split; [|split].
  - intros fuel depth is_max br_factor name st.
    apply leaf_from_empty_raises.
  - intros fuel D is_max B name lv k HD HB Hlen Hfuel.
    destruct (Z.eq_dec D 0) as [->|HD0].
    + destruct fuel as [|fuel]; [lia|].
      destruct (gen_tree_leaf_fills str_upper random_integers fuel is_max B name lv k)
        as [_ Hfail].
      apply Hfail. cbn in Hlen. lia.
    + assert (HB' : 1 <= B <= MAX_BR_FACTOR) by (destruct HB; [contradiction | auto]).
      destruct (gen_tree_fills str_upper random_integers B HB' (Z.to_nat D) fuel
                  is_max name Hfuel lv k) as [_ Hfail].
      rewrite Z2Nat.id in Hfail by exact HD.
      apply Hfail. rewrite <- Z2Nat.inj_pow by lia. lia.
  - intros fuel is_max name k. destruct is_max; reflexivity.
Qed.

(** The fourth leaf of gen_tree(2, True, 2, 'A', [1, 2, 3]) is asked of an
    empty list. *)
Lemma leaf_from_empty_1_2_3 :
  leaf_from_empty ascii_upper zeros 3 2 true 2 name_A (supplied [1; 2; 3]).
Proof.
  eapply (empty_below _ _ _ _ _ _ _ _ [0] 1 []);
    [discriminate | reflexivity | reflexivity | reflexivity |].
  eapply (empty_below _ _ _ _ _ _ _ _ [0] 1 []);
    [discriminate | reflexivity | reflexivity | reflexivity |].
  apply empty_here.
Qed.

Lemma gen_tree_exhaustion_witness :
  (leaf_from_empty ascii_upper zeros 3 2 true 2 name_A (supplied [1; 2; 3]) /\
   exists k,
     gen_tree ascii_upper zeros 3 2 true 2 name_A (supplied [1; 2; 3]) =
     (Raise IndexError, mk_state (Some []) k)) /\
  ((0 <= 2 /\ (2 = 0 \/ 1 <= 2 <= MAX_BR_FACTOR) /\
    Z.of_nat (length [1; 2; 3]) < 2 ^ 2 /\ (Z.to_nat 2 < 3)%nat) /\
   gen_tree ascii_upper zeros 3 2 true 2 name_A (supplied [1; 2; 3]) =
   (Raise IndexError, supplied [])).
Proof.
  split.
  - pose proof leaf_from_empty_1_2_3 as H.
    split; [exact H|].
    exact (proj1 (gen_tree_exhaustion ascii_upper zeros)
             3%nat 2 true 2 name_A (supplied [1; 2; 3]) H).
  - assert (H : 0 <= 2 /\ (2 = 0 \/ 1 <= 2 <= MAX_BR_FACTOR) /\
                Z.of_nat (length [1; 2; 3]) < 2 ^ 2 /\ (Z.to_nat 2 < 3)%nat).
    { unfold MAX_BR_FACTOR, CHR_RANGE, ord_a. cbn. lia. }
    split; [exact H|].
    destruct H as (H1 & H2 & H3 & H4).
    exact (proj1 (proj2 (gen_tree_exhaustion ascii_upper zeros))
             3%nat 2 true 2 name_A [1; 2; 3] 0%nat H1 H2 H3 H4).
Defined.

(** ** Parameters are not checked *)

(** C6, as the code has it.  [gen_tree] has no check of [depth] or
    [br_factor].  With depth <> 0 and br_factor <= 0 the loop body never
    runs: the call returns a node without children and leaves the values
    untouched.  With depth < 0 and br_factor >= 1 every call makes a
    recursive call on depth - 1, which is negative again: no fuel lets the
    call end, and nothing is raised by [gen_tree] itself. *)
Theorem gen_tree_checks_nothing :
  forall (str_upper : str -> str) (random_integers : nat -> Z)
         (fuel : nat) (depth : Z) (is_max : bool) (br_factor : Z) (name : str)
         (st : gen_state),
    (depth <> 0 -> br_factor <= 0 ->
     gen_tree str_upper random_integers (S fuel) depth is_max br_factor name st =
     (Ret (InnerNode name []), st)) /\
    (depth < 0 -> 1 <= br_factor ->
     gen_tree str_upper random_integers fuel depth is_max br_factor name st =
     (OutOfFuel, st)).
Proof.
  intros. split.
  - apply gen_tree_no_children.
  - apply gen_tree_negative_depth.
Qed.

Lemma gen_tree_checks_nothing_witness :
  ((-1 <> 0 /\ 0 <= 0) /\
   gen_tree ascii_upper zeros 6 (-1) true 0 name_A (supplied [1; 2; 3]) =
   (Ret (InnerNode name_A []), supplied [1; 2; 3])) /\
  ((-1 < 0 /\ 1 <= 2) /\
   gen_tree ascii_upper zeros 5 (-1) true 2 name_A (supplied [1; 2; 3]) =
   (OutOfFuel, supplied [1; 2; 3])).
Proof.
  split.
  - split; [lia|].
    apply (proj1 (gen_tree_checks_nothing ascii_upper zeros 5 (-1) true 0 name_A
                    (supplied [1; 2; 3]))); lia.
  - split; [lia|].
    apply (proj2 (gen_tree_checks_nothing ascii_upper zeros 5 (-1) true 2 name_A
                    (supplied [1; 2; 3]))); lia.
Defined.

(** C6 as stated fails: with br_factor = 0 at depth 1 the call ends
    normally, with a childless node; with br_factor = -1 at depth -1 as
    well. *)
Lemma gen_tree_accepts_bad_parameters :
  gen_tree ascii_upper zeros 1 1 true 0 name_A (supplied [1; 2; 3]) =
  (Ret (InnerNode name_A []), supplied [1; 2; 3]) /\
  gen_tree ascii_upper zeros 1 (-1) true (-1) name_A (supplied [1; 2; 3]) =
  (Ret (InnerNode name_A []), supplied [1; 2; 3]).
Proof. split; reflexivity. Qed.

(* ------------------------------------------------------------------ *)
(** * Further properties of alpha_beta *)

(** X1. For a window with MIN_VALUE <= alpha < beta <= MAX_VALUE, on any
    node: a value returned strictly inside the window is the exhaustive
    value; a value at or below alpha is an upper bound of the exhaustive
    value; a value at or above beta is a lower bound of it. *)
Theorem alpha_beta_window_exact :
  forall node is_max alpha beta spaces verbose,
    MIN_VALUE <= alpha -> alpha < beta -> beta <= MAX_VALUE ->
    (alpha < fst (alpha_beta node alpha beta is_max spaces verbose) < beta ->
     fst (alpha_beta node alpha beta is_max spaces verbose) = minimax node is_max) /\
    (fst (alpha_beta node alpha beta is_max spaces verbose) <= alpha ->
     minimax node is_max <= fst (alpha_beta node alpha beta is_max spaces verbose)) /\
    (beta <= fst (alpha_beta node alpha beta is_max spaces verbose) ->
     fst (alpha_beta node alpha beta is_max spaces verbose) <= minimax node is_max).
Proof.
  intros node is_max alpha beta spaces verbose Ha Hab Hb.
  destruct (alpha_beta_window node is_max alpha beta spaces verbose Ha Hab Hb)
    as (H1 & H2 & H3).
  auto.
Qed.

Lemma alpha_beta_window_exact_witness :
  (MIN_VALUE <= 0 /\ 0 < 4 /\ 4 <= MAX_VALUE) /\
  (4 <= fst (alpha_beta tree_3_5 0 4 true [] false) /\
   fst (alpha_beta tree_3_5 0 4 true [] false) <= minimax tree_3_5 true).
Proof.
  assert (H : MIN_VALUE <= 0 /\ 0 < 4 /\ 4 <= MAX_VALUE)
    by (unfold MIN_VALUE, MAX_VALUE; lia).
  split; [exact H|].
  destruct H as (H1 & H2 & H3).
  assert (H4 : 4 <= fst (alpha_beta tree_3_5 0 4 true [] false))
    by (vm_compute; discriminate).
  split; [exact H4|].
  exact (proj2 (proj2 (alpha_beta_window_exact tree_3_5 true 0 4 [] false
                         H1 H2 H3)) H4).
Defined.

Lemma max_loop_ge_init rec spaces name verbose child_nodes :
  forall v alpha beta,
    v <= fst (max_loop rec spaces name verbose child_nodes v alpha beta).
Proof.
  induction child_nodes as [|ch rest IH]; intros v alpha beta.
  - cbn. lia.
  - rewrite max_loop_value. cbv zeta. destruct (beta <=? _); [lia|].
    etransitivity; [|apply IH]. lia.
Qed.

Lemma min_loop_le_init rec spaces name verbose child_nodes :
  forall v alpha beta,
    fst (min_loop rec spaces name verbose child_nodes v alpha beta) <= v.
Proof.
  induction child_nodes as [|ch rest IH]; intros v alpha beta.
  - cbn. lia.
  - rewrite min_loop_value. cbv zeta. destruct (_ <=? alpha); [lia|].
    etransitivity; [apply IH|]. lia.
Qed.

(** X2. Whatever the leaves and the window, a maximizing node that is not
    a leaf never returns less than MIN_VALUE, and a minimizing node that is
    not a leaf never returns more than MAX_VALUE. *)
Theorem alpha_beta_inner_clamped :
  forall name child_nodes alpha beta spaces verbose,
    MIN_VALUE <=
    fst (alpha_beta (InnerNode name child_nodes) alpha beta true spaces verbose) /\
    fst (alpha_beta (InnerNode name child_nodes) alpha beta false spaces verbose)
    <= MAX_VALUE.
Proof.
  intros. rewrite !alpha_beta_value_inner. split.
  - apply max_loop_ge_init.
  - apply min_loop_le_init.
Qed.

(** X3. A node entered with beta <= alpha still searches its first child,
    and only that one: its later children change neither the value nor the
    output. *)
Theorem alpha_beta_closed_window_first_child_only :
  forall name ch rest alpha beta is_max spaces verbose,
    beta <= alpha ->
    alpha_beta (InnerNode name (ch :: rest)) alpha beta is_max spaces verbose =
    alpha_beta (InnerNode name [ch]) alpha beta is_max spaces verbose.
Proof.
  intros name ch rest alpha beta is_max spaces verbose Hclosed.
  apply (alpha_beta_later_siblings_unused name [] ch rest).
  cbv zeta. destruct is_max; lia.
Qed.

Lemma alpha_beta_closed_window_first_child_only_witness :
  3 <= 7 /\
  alpha_beta tree_3_5 7 3 true [] true =
  alpha_beta (InnerNode name_A [LeafNode [65; 45; 97] 3]) 7 3 true [] true.
Proof.
  assert (H : 3 <= 7) by lia.
  split; [exact H|].
  exact (alpha_beta_closed_window_first_child_only name_A
           (LeafNode [65; 45; 97] 3) [LeafNode [65; 45; 98] 5] 7 3 true [] true H).
Defined.

Lemma alpha_beta_verbose_head node alpha beta is_max spaces :
  exists out,
    snd (alpha_beta node alpha beta is_max spaces true) =
    match node with
    | LeafNode name eval => PrLeaf spaces name eval
    | InnerNode name _ => PrNode spaces name alpha beta is_max
    end :: out.
Proof.
  destruct node as [name eval | name child_nodes]; cbn [alpha_beta].
  - eexists. reflexivity.
  - destruct is_max.
    + destruct (max_loop _ spaces name true child_nodes _ _ _).
      eexists. reflexivity.
    + destruct (min_loop _ spaces name true child_nodes _ _ _).
      eexists. reflexivity.
Qed.

(** X4. [verbose=False] silences only the node it is passed for: the
    recursive calls are made without it, so a node with at least one child
    still prints, and the first line of its output is the entry line of
    its first child, one level deeper. *)
Theorem alpha_beta_not_silent :
  forall name ch rest alpha beta is_max spaces,
    hd_error
      (snd (alpha_beta (InnerNode name (ch :: rest)) alpha beta is_max spaces false)) =
    Some match ch with
         | LeafNode child_name eval => PrLeaf (indent spaces) child_name eval
         | InnerNode child_name _ =>
             PrNode (indent spaces) child_name alpha beta (negb is_max)
         end.
Proof.
  intros name ch rest alpha beta is_max spaces.
  cbn [alpha_beta say app]. destruct is_max; cbn [negb].
  - destruct (max_loop _ spaces name false (ch :: rest) _ _ _) as [v out] eqn:E.
    apply (f_equal snd) in E. rewrite max_loop_cons in E. cbv zeta in E.
    destruct (alpha_beta_verbose_head ch alpha beta false (indent spaces))
      as (tail & Hhead).
    rewrite Hhead in E. cbn [snd]. rewrite app_nil_r.
    destruct (beta <=? _) in E; cbn [snd] in E; subst out; reflexivity.
  - destruct (min_loop _ spaces name false (ch :: rest) _ _ _) as [v out] eqn:E.
    apply (f_equal snd) in E. rewrite min_loop_cons in E. cbv zeta in E.
    destruct (alpha_beta_verbose_head ch alpha beta true (indent spaces))
      as (tail & Hhead).
    rewrite Hhead in E. cbn [snd]. rewrite app_nil_r.
    destruct (_ <=? alpha) in E; cbn [snd] in E; subst out; reflexivity.
Qed.

(** ** Names and indentation play no part in the value *)

Lemma max_loop_value_map rec rec' (f : Node -> Node)
      spaces spaces' name name' verbose verbose' child_nodes :
  Forall (fun ch => forall a b, fst (rec ch a b) = fst (rec' (f ch) a b))
         child_nodes ->
  forall v alpha beta,
    fst (max_loop rec spaces name verbose child_nodes v alpha beta) =
    fst (max_loop rec' spaces' name' verbose' (map f child_nodes) v alpha beta).
Proof.
  induction 1 as [|ch rest Hch _ IH]; intros v alpha beta; [reflexivity|].
  cbn [map]. rewrite !max_loop_value. cbv zeta. rewrite <- Hch.
  destruct (beta <=? _); [reflexivity | apply IH].
Qed.

Lemma min_loop_value_map rec rec' (f : Node -> Node)
      spaces spaces' name name' verbose verbose' child_nodes :
  Forall (fun ch => forall a b, fst (rec ch a b) = fst (rec' (f ch) a b))
         child_nodes ->
  forall v alpha beta,
    fst (min_loop rec spaces name verbose child_nodes v alpha beta) =
    fst (min_loop rec' spaces' name' verbose' (map f child_nodes) v alpha beta).
Proof.
  induction 1 as [|ch rest Hch _ IH]; intros v alpha beta; [reflexivity|].
  cbn [map]. rewrite !min_loop_value. cbv zeta. rewrite <- Hch.
  destruct (_ <=? alpha); [reflexivity | apply IH].
Qed.

(** X5. The value returned by [alpha_beta] depends on the shape of the
    tree and on its leaf values only: erasing every node name and changing
    the indentation and [verbose] leave it unchanged. *)
Theorem alpha_beta_value_ignores_names :
  forall node alpha beta is_max spaces spaces' verbose verbose',
    fst (alpha_beta node alpha beta is_max spaces verbose) =
    fst (alpha_beta (erase_names node) alpha beta is_max spaces' verbose').
Proof.
  induction node as [name eval | name child_nodes IH] using Node_rose_ind;
    intros alpha beta is_max spaces spaces' verbose verbose'.
  - reflexivity.
  - cbn [erase_names]. rewrite !alpha_beta_value_inner. destruct is_max.
    + apply max_loop_value_map. eapply Forall_impl; [|exact IH].
      intros ch Hch a b. apply Hch.
    + apply min_loop_value_map. eapply Forall_impl; [|exact IH].
      intros ch Hch a b. apply Hch.
Qed.

(** ** The leaves that are searched *)

Lemma subseq_nil_l {A : Type} (l : list A) : subseq [] l.
Proof. induction l; constructor; auto. Qed.

Lemma subseq_refl {A : Type} (l : list A) : subseq l l.
Proof. induction l; constructor; auto. Qed.

Lemma subseq_app {A : Type} (l1 l2 m1 m2 : list A) :
  subseq l1 l2 -> subseq m1 m2 -> subseq (l1 ++ m1) (l2 ++ m2).
Proof.
  induction 1; intros Hm; cbn; try constructor; auto.
Qed.

Lemma subseq_length {A : Type} (l1 l2 : list A) :
  subseq l1 l2 -> (length l1 <= length l2)%nat.
Proof. induction 1; cbn; lia. Qed.

Lemma subseq_map {A B : Type} (f : A -> B) (l1 l2 : list A) :
  subseq l1 l2 -> subseq (map f l1) (map f l2).
Proof. induction 1; cbn; constructor; auto. Qed.

Lemma subseq_app_nil_r {A : Type} (l1 l2 m : list A) :
  subseq l1 l2 -> subseq l1 (l2 ++ m).
Proof.
  intros H. rewrite <- (app_nil_r l1). apply subseq_app; [exact H|].
  apply subseq_nil_l.
Qed.

Lemma leaf_lines_printed_app out1 out2 :
  leaf_lines_printed (out1 ++ out2) =
  leaf_lines_printed out1 ++ leaf_lines_printed out2.
Proof. apply flat_map_app. Qed.

Lemma leaf_lines_shown_flat_map (f : Node -> list shown) (l : list Node) :
  leaf_lines_shown (flat_map f l) = flat_map (fun ch => leaf_lines_shown (f ch)) l.
Proof.
  induction l as [|ch rest IH]; [reflexivity|].
  cbn [flat_map]. unfold leaf_lines_shown at 1. rewrite flat_map_app.
  fold (leaf_lines_shown (f ch)). fold (leaf_lines_shown (flat_map f rest)).
  now rewrite IH.
Qed.

Section LoopLeafLines.
Variable rec : Node -> Z -> Z -> Z * list line.
Variable g : Node -> list (str * str * Z).
Variables (spaces name : str) (verbose : bool).

Lemma max_loop_leaf_lines child_nodes :
  Forall (fun ch => forall a b,
              subseq (leaf_lines_printed (snd (rec ch a b))) (g ch)) child_nodes ->
  forall v alpha beta,
    subseq
      (leaf_lines_printed
         (snd (max_loop rec spaces name verbose child_nodes v alpha beta)))
      (flat_map g child_nodes).
Proof.
  induction 1 as [|ch rest Hch _ IH]; intros v alpha beta.
  - cbn. constructor.
  - rewrite max_loop_cons. cbv zeta. cbn [flat_map].
    assert (Hupd : forall c l, leaf_lines_printed
                     (if c : bool then say verbose (PrUpdAlpha spaces name alpha l)
                      else []) = []).
    { intros [] l; [destruct verbose|]; reflexivity. }
    destruct (beta <=? _); cbn [snd];
      rewrite !leaf_lines_printed_app, Hupd, app_nil_r.
    + apply subseq_app; [apply Hch|].
      destruct verbose; apply subseq_nil_l.
    + apply subseq_app; [apply Hch | apply IH].
Qed.

Lemma min_loop_leaf_lines child_nodes :
  Forall (fun ch => forall a b,
              subseq (leaf_lines_printed (snd (rec ch a b))) (g ch)) child_nodes ->
  forall v alpha beta,
    subseq
      (leaf_lines_printed
         (snd (min_loop rec spaces name verbose child_nodes v alpha beta)))
      (flat_map g child_nodes).
Proof.
  induction 1 as [|ch rest Hch _ IH]; intros v alpha beta.
  - cbn. constructor.
  - rewrite min_loop_cons. cbv zeta. cbn [flat_map].
    assert (Hupd : forall c l, leaf_lines_printed
                     (if c : bool then say verbose (PrUpdBeta spaces name alpha l)
                      else []) = []).
    { intros [] l; [destruct verbose|]; reflexivity. }
    destruct (_ <=? alpha); cbn [snd];
      rewrite !leaf_lines_printed_app, Hupd, app_nil_r.
    + apply subseq_app; [apply Hch|].
      destruct verbose; apply subseq_nil_l.
    + apply subseq_app; [apply Hch | apply IH].
Qed.
End LoopLeafLines.

Lemma alpha_beta_leaf_lines node :
  forall alpha beta is_max spaces verbose,
    subseq (leaf_lines_printed (snd (alpha_beta node alpha beta is_max spaces verbose)))
           (leaf_lines_shown (print_tree node spaces)).
Proof.
  induction node as [name eval | name child_nodes IH] using Node_rose_ind;
    intros alpha beta is_max spaces verbose.
  - destruct verbose; cbn; repeat constructor.
  - cbn [print_tree].
    change (leaf_lines_shown (ShNode spaces name :: ?l)) with (leaf_lines_shown l).
    rewrite leaf_lines_shown_flat_map.
    assert (Hsay : forall l, match l with PrLeaf _ _ _ => False | _ => True end ->
                             leaf_lines_printed (say verbose l) = []).
    { intros l Hl. destruct verbose; [|reflexivity].
      destruct l; try reflexivity. contradiction. }
    cbn [alpha_beta]. destruct is_max.
    + pose proof (max_loop_leaf_lines
                    (fun ch a b => alpha_beta ch a b false (indent spaces) true)
                    (fun ch => leaf_lines_shown (print_tree ch (indent spaces)))
                    spaces name verbose child_nodes) as Hloop.
      destruct (max_loop _ spaces name verbose child_nodes MIN_VALUE alpha beta)
        as [v out] eqn:E.
      cbn [snd]. rewrite !leaf_lines_printed_app, !Hsay by exact I.
      rewrite app_nil_r. cbn [app].
      specialize (Hloop ltac:(eapply Forall_impl; [|exact IH];
                               intros ch Hch a b; apply Hch)
                        MIN_VALUE alpha beta).
      rewrite E in Hloop. exact Hloop.
    + pose proof (min_loop_leaf_lines
                    (fun ch a b => alpha_beta ch a b true (indent spaces) true)
                    (fun ch => leaf_lines_shown (print_tree ch (indent spaces)))
                    spaces name verbose child_nodes) as Hloop.
      destruct (min_loop _ spaces name verbose child_nodes MAX_VALUE alpha beta)
        as [v out] eqn:E.
      cbn [snd]. rewrite !leaf_lines_printed_app, !Hsay by exact I.
      rewrite app_nil_r. cbn [app].
      specialize (Hloop ltac:(eapply Forall_impl; [|exact IH];
                               intros ch Hch a b; apply Hch)
                        MAX_VALUE alpha beta).
      rewrite E in Hloop. exact Hloop.
Qed.

Lemma leaves_printed_map out :
  leaves_printed out = map snd (leaf_lines_printed out).
Proof.
  induction out as [|l out IH]; [reflexivity|].
  unfold leaves_printed, leaf_lines_printed in *. cbn [flat_map].
  rewrite map_app, IH. destruct l; reflexivity.
Qed.

Lemma print_tree_leaves node :
  forall spaces,
    map snd (leaf_lines_shown (print_tree node spaces)) = leaf_evals node.
Proof.
  induction node as [name eval | name child_nodes IH] using Node_rose_ind;
    intros spaces.
  - reflexivity.
  - cbn [print_tree leaf_evals].
    change (leaf_lines_shown (ShNode spaces name :: ?l)) with (leaf_lines_shown l).
    rewrite leaf_lines_shown_flat_map.
    induction IH as [|ch rest Hch _ IHrest]; [reflexivity|].
    cbn [flat_map]. now rewrite map_app, Hch, IHrest.
Qed.

(** X6. The leaves that a search evaluates, in the order in which their
    lines are printed, are leaves of the tree taken from left to right with
    some left out: no leaf is evaluated twice or out of order, and never
    more leaves than the tree has. *)
Theorem alpha_beta_leaves_in_order :
  forall node alpha beta is_max spaces verbose,
    subseq (leaves_printed (snd (alpha_beta node alpha beta is_max spaces verbose)))
           (leaf_evals node) /\
    (length (leaves_printed (snd (alpha_beta node alpha beta is_max spaces verbose)))
     <= length (leaf_evals node))%nat.
Proof.
  intros node alpha beta is_max spaces verbose.
  assert (H : subseq
                (leaves_printed
                   (snd (alpha_beta node alpha beta is_max spaces verbose)))
                (leaf_evals node)).
  { rewrite leaves_printed_map, <- (print_tree_leaves node spaces).
    apply subseq_map, alpha_beta_leaf_lines. }
  split; [exact H | apply subseq_length, H].
Qed.

(** X7. Every leaf line that [alpha_beta_root] prints is, with the same
    indentation, name and value, a leaf line of [print_tree] called on the
    same tree with the empty indentation, and the lines come in the same
    order. *)
Theorem alpha_beta_root_lines_among_print_tree :
  forall node is_max,
    subseq (leaf_lines_printed (snd (alpha_beta_root node is_max)))
           (leaf_lines_shown (print_tree node [])).
Proof.
  intros node is_max. apply alpha_beta_leaf_lines.
Qed.

(** * Properties of print_tree *)

Lemma length_flat_map_sum {A B : Type} (f : A -> list B) (l : list A) :
  length (flat_map f l) = list_sum (map (fun x => length (f x)) l).
Proof.
  induction l as [|x l IH]; [reflexivity|].
  cbn [flat_map map list_sum]. now rewrite length_app, IH.
Qed.

(** X8. [print_tree] prints exactly one line per node of the tree, and its
    leaf lines carry the leaf values from left to right. *)
Theorem print_tree_one_line_per_node :
  forall node spaces,
    length (print_tree node spaces) = count_nodes node /\
    map snd (leaf_lines_shown (print_tree node spaces)) = leaf_evals node.
Proof.
  intros node spaces. split; [|apply print_tree_leaves].
  revert spaces.
  induction node as [name eval | name child_nodes IH] using Node_rose_ind;
    intros spaces.
  - reflexivity.
  - cbn [print_tree count_nodes length]. f_equal.
    rewrite length_flat_map_sum. f_equal.
    induction IH as [|ch rest Hch _ IHrest]; [reflexivity|].
    cbn [map]. now rewrite Hch, IHrest.
Qed.

Lemma indent_repeat spaces j :
  indent (spaces ++ repeat SPACE (2 * j)) = spaces ++ repeat SPACE (2 * S j).
Proof.
  unfold indent. rewrite <- app_assoc. f_equal.
  replace (2 * S j)%nat with (2 * j + 2)%nat by lia.
  now rewrite repeat_app.
Qed.

Lemma print_tree_indentation_from node :
  forall spaces j d,
    leaves_at_depth d node = true ->
    Forall (fun l =>
              exists i, (j <= i <= j + d)%nat /\
                        shown_spaces l = spaces ++ repeat SPACE (2 * i) /\
                        match l with
                        | ShLeaf _ _ _ => i = (j + d)%nat
                        | ShNode _ _ => True
                        end)
           (print_tree node (spaces ++ repeat SPACE (2 * j))).
Proof.
  induction node as [name eval | name child_nodes IH] using Node_rose_ind;
    intros spaces j d Hdepth.
  - destruct d; [|discriminate]. constructor; [|constructor].
    exists j. cbn. repeat split; lia.
  - destruct d as [|d]; [discriminate|].
    cbn [leaves_at_depth] in Hdepth. rename Hdepth into Hall.
    rewrite forallb_forall in Hall.
    cbn [print_tree]. constructor.
    + exists j. cbn. repeat split; lia.
    + rewrite Forall_forall in IH |- *. intros l Hl.
      apply in_flat_map in Hl as (ch & Hch & Hl).
      rewrite indent_repeat in Hl.
      pose proof (IH ch Hch spaces (S j) d (Hall ch Hch)) as Hlines.
      rewrite Forall_forall in Hlines.
      destruct (Hlines l Hl) as (i & Hi & Hsp & Hleaf).
      exists i. split; [lia|]. split; [exact Hsp|].
      destruct l; [lia | exact I].
Qed.

(** X9. On a tree whose leaves all lie at depth [d] (whatever the number
    of children of its nodes), [print_tree] indents every line by the given
    indentation followed by two spaces per level: between 0 and d levels
    for any line, exactly d levels for a leaf line. *)
Theorem print_tree_indentation :
  forall node spaces d,
    leaves_at_depth d node = true ->
    Forall (fun l =>
              exists i, (i <= d)%nat /\
                        shown_spaces l = spaces ++ repeat SPACE (2 * i) /\
                        match l with
                        | ShLeaf _ _ _ => i = d
                        | ShNode _ _ => True
                        end)
           (print_tree node spaces).
Proof.
  intros node spaces d Hdepth.
  pose proof (print_tree_indentation_from node spaces 0 d Hdepth) as H.
  cbn [repeat Nat.mul] in H. rewrite app_nil_r in H.
  eapply Forall_impl; [|exact H].
  intros l (i & Hi & Hsp & Hleaf). exists i.
  split; [lia|]. split; [exact Hsp|]. destruct l; [lia | exact I].
Qed.

Lemma print_tree_indentation_witness :
  leaves_at_depth 2 tree_2_and_3 = true /\
  Forall (fun l =>
            exists i, (i <= 2)%nat /\
                      shown_spaces l = [] ++ repeat SPACE (2 * i) /\
                      match l with
                      | ShLeaf _ _ _ => i = 2%nat
                      | ShNode _ _ => True
                      end)
         (print_tree tree_2_and_3 []).
Proof.
  split; [reflexivity|].
  exact (print_tree_indentation tree_2_and_3 [] 2 eq_refl).
Defined.

(* ------------------------------------------------------------------ *)
(** * Further properties of gen_tree *)

Section GenTreeMore.
Variable str_upper : str -> str.
Variable random_integers : nat -> Z.

(** ** Random leaves *)

Lemma gen_loop_draws rec is_max name n d b indices :
  (forall child_name, draws random_integers n d b (rec child_name)) ->
  Forall (fun i => 0 <= i < MAX_BR_FACTOR) indices ->
  forall child_nodes k,
    exists new_nodes,
      gen_loop str_upper rec is_max name indices child_nodes (mk_state None k) =
      (Ret (child_nodes ++ new_nodes),
       mk_state None (k + length indices * n)) /\
      length new_nodes = length indices /\
      forallb (uniform d b) new_nodes = true /\
      flat_map leaf_evals new_nodes =
      map random_integers (seq k (length indices * n)).
Proof.
  intros Hrec Hall.
  induction Hall as [|i indices Hi _ IH]; intros child_nodes k.
  - exists []. cbn. rewrite app_nil_r, Nat.add_0_r. auto.
  - cbn [gen_loop length]. rewrite (chr_ord_a i Hi).
    set (child_name := name ++ [DASH] ++ _).
    destruct (Hrec child_name k) as (t & -> & Hunif & Hevals).
    destruct (IH (child_nodes ++ [t]) (k + n)%nat)
      as (new_nodes & -> & Hcount & Hall' & Hnew).
    exists (t :: new_nodes). rewrite <- app_assoc. cbn [app].
    replace (k + n + length indices * n)%nat
      with (k + S (length indices) * n)%nat by lia.
    repeat split.
    + cbn. now rewrite Hcount.
    + cbn. now rewrite Hunif, Hall'.
    + cbn [flat_map]. rewrite Hevals, Hnew, <- map_app, <- seq_app.
      do 2 f_equal; lia.
Qed.

Lemma gen_tree_draws br_factor :
  1 <= br_factor <= MAX_BR_FACTOR ->
  forall (d fuel : nat) is_max name,
    (d < fuel)%nat ->
    draws random_integers (Z.to_nat br_factor ^ d) d (Z.to_nat br_factor)
      (gen_tree str_upper random_integers fuel (Z.of_nat d) is_max br_factor name).
Proof.
  intros Hb. induction d as [|d IH]; intros fuel is_max name Hfuel;
    (destruct fuel as [|fuel]; [lia|]).
  - intros k. eexists. cbn. rewrite Nat.add_1_r. auto.
  - intros k. rewrite gen_tree_inner by lia.
    replace (Z.of_nat (S d) - 1) with (Z.of_nat d) by lia.
    assert (Hrange : Forall (fun i => 0 <= i < MAX_BR_FACTOR) (range br_factor)).
    { eapply Forall_impl; [|apply range_bounds]. cbv beta. lia. }
    destruct (gen_loop_draws
                (fun child_name =>
                   gen_tree str_upper random_integers fuel (Z.of_nat d)
                     (negb is_max) br_factor child_name)
                is_max name _ d (Z.to_nat br_factor) (range br_factor)
                (fun child_name => IH fuel (negb is_max) child_name ltac:(lia))
                Hrange [] k) as (new_nodes & -> & Hcount & Hall & Hevals).
    rewrite range_length in *.
    change (Z.to_nat br_factor ^ S d)%nat
      with (Z.to_nat br_factor * Z.to_nat br_factor ^ d)%nat.
    exists (InnerNode name new_nodes). cbn [app]. split; [reflexivity|].
    split; [|exact Hevals].
    cbn [uniform]. now rewrite Hall, Hcount, Nat.eqb_refl.
Qed.

(** X10. Called with [leaf_values=None], depth D >= 0 and 1 <= B <=
    MAX_BR_FACTOR, [gen_tree] returns a tree with all leaves at depth D and
    B children per node above them; its leaves hold, from left to right,
    the next B^D numbers of the random source, which is drawn from exactly
    B^D times; no exception is raised. *)
Theorem gen_tree_random_leaves :
  forall (fuel : nat) (D : Z) (is_max : bool) (B : Z) (name : str) (k : nat),
    0 <= D -> 1 <= B <= MAX_BR_FACTOR -> (Z.to_nat D < fuel)%nat ->
    exists t,
      gen_tree str_upper random_integers fuel D is_max B name (mk_state None k) =
      (Ret t, mk_state None (k + Z.to_nat (B ^ D))) /\
      uniform (Z.to_nat D) (Z.to_nat B) t = true /\
      leaf_evals t = map random_integers (seq k (Z.to_nat (B ^ D))).
Proof.
  intros fuel D is_max B name k HD HB Hfuel.
  rewrite Z2Nat.inj_pow by lia.
  destruct (gen_tree_draws B HB (Z.to_nat D) fuel is_max name Hfuel k)
    as (t & Hrun & Hunif & Hevals).
  rewrite Z2Nat.id in Hrun by exact HD.
  exists t. auto.
Qed.

(** ** Names *)

Lemma gen_loop_names rec is_max name indices :
  (forall child_name st t st',
      rec child_name st = (Ret t, st') -> node_name t = child_name) ->
  forall child_nodes st result st',
    gen_loop str_upper rec is_max name indices child_nodes st = (Ret result, st') ->
    exists new_nodes,
      result = child_nodes ++ new_nodes /\
      map node_name new_nodes =
      map (fun i => name ++ [DASH] ++ suffix_of str_upper is_max i) indices.
Proof.
  intros Hrec.
  induction indices as [|i indices IH]; intros child_nodes st result st' Hrun;
    cbn [gen_loop] in Hrun.
  - inversion Hrun; subst. exists []. now rewrite app_nil_r.
  - unfold chr in Hrun. destruct ((0 <=? ord_a + i) && (ord_a + i <? CHR_RANGE));
      [|discriminate].
    match type of Hrun with
    | context [rec ?nm ?s0] => destruct (rec nm s0) as [[t|e|] st1] eqn:Hcall
    end; try discriminate.
    apply Hrec in Hcall.
    apply IH in Hrun as (new_nodes & -> & Hnames).
    exists (t :: new_nodes). rewrite <- app_assoc. split; [reflexivity|].
    cbn [map]. rewrite Hcall, Hnames. reflexivity.
Qed.

Lemma gen_tree_root_name fuel :
  forall depth is_max br_factor name st t st',
    gen_tree str_upper random_integers fuel depth is_max br_factor name st =
    (Ret t, st') ->
    node_name t = name.
Proof.
  destruct fuel as [|fuel]; intros depth is_max br_factor name st t st' Hrun;
    [discriminate|].
  cbn [gen_tree] in Hrun. destruct (depth =? 0).
  - destruct (leaf_values st) as [[|val rest]|]; inversion Hrun; reflexivity.
  - match type of Hrun with
    | context [gen_loop ?u ?r ?m ?nm ?ix ?acc ?s0] =>
        destruct (gen_loop u r m nm ix acc s0) as [[result|e|] st1]
    end; inversion Hrun; reflexivity.
Qed.

(** X11. A tree returned by [gen_tree] carries the given name at its root,
    and when depth is not 0 the name of its child number i, for every i in
    range(br_factor), is the given name, a dash and the letter
    chr(ord('a') + i), upper-cased when [is_max] is false. *)
Theorem gen_tree_names :
  forall (fuel : nat) (depth : Z) (is_max : bool) (br_factor : Z) (name : str)
         (st : gen_state) (t : Node) (st' : gen_state),
    gen_tree str_upper random_integers fuel depth is_max br_factor name st =
    (Ret t, st') ->
    node_name t = name /\
    (depth <> 0 ->
     map node_name (node_children t) =
     map (fun i => name ++ [DASH] ++ suffix_of str_upper is_max i)
         (range br_factor)).
Proof.
  intros fuel depth is_max br_factor name st t st' Hrun.
  split; [exact (gen_tree_root_name _ _ _ _ _ _ _ _ Hrun)|].
  intros Hd. destruct fuel as [|fuel]; [discriminate|].
  rewrite gen_tree_inner in Hrun by exact Hd.
  match type of Hrun with
  | context [gen_loop ?u ?r ?m ?nm ?ix ?acc ?s0] =>
      destruct (gen_loop u r m nm ix acc s0) as [[result|e|] st1] eqn:Hloop
  end; try discriminate.
  inversion Hrun; subst. cbn [node_children].
  apply gen_loop_names in Hloop as (new_nodes & -> & Hnames);
    [exact Hnames|].
  intros child_name s0 t0 s1. apply gen_tree_root_name.
Qed.

(** ** Branching factors above MAX_BR_FACTOR *)

Lemma gen_loop_ret_chr rec is_max name indices :
  forall child_nodes st result st',
    gen_loop str_upper rec is_max name indices child_nodes st = (Ret result, st') ->
    Forall (fun i => chr (ord_a + i) <> Raise ValueError) indices.
Proof.
  induction indices as [|i indices IH]; intros child_nodes st result st' Hrun;
    [constructor|].
  cbn [gen_loop] in Hrun.
  destruct (chr (ord_a + i)) as [child_suffix|e|] eqn:Hchr; try discriminate.
  constructor; [cbv beta; rewrite Hchr; discriminate|].
  match type of Hrun with
  | context [rec ?nm ?s0] => destruct (rec nm s0) as [[t|e|] st1]
  end; try discriminate.
  eapply IH, Hrun.
Qed.

(** X12. With depth other than 0 and a branching factor above
    MAX_BR_FACTOR = 1114015, [gen_tree] never returns a tree, whatever the
    values supplied (or none) and however long it runs: child number
    1114015 has no name. *)
Theorem gen_tree_too_wide_never_returns :
  forall (fuel : nat) (depth : Z) (is_max : bool) (br_factor : Z) (name : str)
         (st : gen_state) (t : Node) (st' : gen_state),
    depth <> 0 -> MAX_BR_FACTOR < br_factor ->
    gen_tree str_upper random_integers fuel depth is_max br_factor name st <>
    (Ret t, st').
Proof.
  intros fuel depth is_max br_factor name st t st' Hd Hb Hrun.
  destruct fuel as [|fuel]; [discriminate|].
  rewrite gen_tree_inner in Hrun by exact Hd.
  match type of Hrun with
  | context [gen_loop ?u ?r ?m ?nm ?ix ?acc ?s0] =>
      destruct (gen_loop u r m nm ix acc s0) as [[result|e|] st1] eqn:Hloop
  end; try discriminate.
  apply gen_loop_ret_chr in Hloop. rewrite Forall_forall in Hloop.
  apply (Hloop MAX_BR_FACTOR).
  - unfold range. apply in_map_iff. exists (Z.to_nat MAX_BR_FACTOR).
    assert (0 <= MAX_BR_FACTOR) by (unfold MAX_BR_FACTOR; cbn; lia).
    split; [lia | apply in_seq; lia].
  - apply chr_out_of_range. lia.
Qed.
End GenTreeMore.

Lemma gen_tree_random_leaves_witness :
  (0 <= 1 /\ 1 <= 2 <= MAX_BR_FACTOR /\ (Z.to_nat 1 < 2)%nat) /\
  exists t,
    gen_tree ascii_upper zeros 2 1 true 2 name_A (mk_state None 0) =
    (Ret t, mk_state None (0 + Z.to_nat (2 ^ 1))) /\
    uniform (Z.to_nat 1) (Z.to_nat 2) t = true /\
    leaf_evals t = map zeros (seq 0 (Z.to_nat (2 ^ 1))).
Proof.
  assert (H : 0 <= 1 /\ 1 <= 2 <= MAX_BR_FACTOR /\ (Z.to_nat 1 < 2)%nat).
  { unfold MAX_BR_FACTOR, CHR_RANGE, ord_a. cbn. lia. }
  split; [exact H|].
  destruct H as (H1 & H2 & H3).
  exact (gen_tree_random_leaves ascii_upper zeros 2 1 true 2 name_A 0 H1 H2 H3).
Defined.

Lemma gen_tree_names_witness :
  gen_tree ascii_upper zeros 3 2 true 2 name_A (supplied [3; 5; 2; 9]) =
  (Ret (tree_3_5_2_9 ascii_upper name_A), supplied []) /\
  node_name (tree_3_5_2_9 ascii_upper name_A) = name_A /\
  (2 <> 0 ->
   map node_name (node_children (tree_3_5_2_9 ascii_upper name_A)) =
   map (fun i => name_A ++ [DASH] ++ suffix_of ascii_upper true i) (range 2)).
Proof.
  split; [reflexivity|].
  exact (gen_tree_names ascii_upper zeros 3 2 true 2 name_A (supplied [3; 5; 2; 9])
           (tree_3_5_2_9 ascii_upper name_A) (supplied []) eq_refl).
Defined.

Lemma gen_tree_too_wide_never_returns_witness :
  (1 <> 0 /\ MAX_BR_FACTOR < 1114016) /\
  gen_tree ascii_upper zeros 2 1 true 1114016 name_A (supplied [1; 2; 3]) <>
  (Ret (InnerNode name_A []), supplied []).
Proof.
  assert (H : 1 <> 0 /\ MAX_BR_FACTOR < 1114016).
  { unfold MAX_BR_FACTOR, CHR_RANGE, ord_a. lia. }
  split; [exact H|].
  destruct H as (H1 & H2).
  exact (gen_tree_too_wide_never_returns ascii_upper zeros 2 1 true 1114016 name_A
           (supplied [1; 2; 3]) (InnerNode name_A []) (supplied []) H1 H2).
Defined.

(** ** The list only loses values at the front *)

Section FrontOnly.
Variable str_upper : str -> str.
Variable random_integers : nat -> Z.

Lemma gen_loop_front_only rec is_max name indices :
  (forall child_name, front_only (rec child_name)) ->
  forall child_nodes,
    front_only (gen_loop str_upper rec is_max name indices child_nodes).
Proof.
  intros Hrec.
  induction indices as [|i indices IH]; intros child_nodes lv k r st' Hrun;
    cbn [gen_loop] in Hrun.
  - inversion Hrun; subst. now exists [], lv.
  - destruct (chr (ord_a + i)) as [child_suffix|e|];
      try (inversion Hrun; subst; now exists [], lv).
    match type of Hrun with
    | context [rec ?nm ?s0] => destruct (rec nm s0) as [res st1] eqn:Hcall
    end.
    apply Hrec in Hcall as (taken1 & lv1 & -> & ->).
    destruct res as [t|e|];
      try (inversion Hrun; subst; now exists taken1, lv1).
    apply IH in Hrun as (taken2 & lv' & -> & ->).
    exists (taken1 ++ taken2), lv'. now rewrite app_assoc.
Qed.

Lemma gen_tree_front_only fuel :
  forall depth is_max br_factor name,
    front_only (gen_tree str_upper random_integers fuel depth is_max br_factor name).
Proof.
  induction fuel as [|fuel IH]; intros depth is_max br_factor name lv k r st' Hrun.
  - inversion Hrun; subst. now exists [], lv.
  - cbn [gen_tree] in Hrun. destruct (depth =? 0).
    + cbn in Hrun. destruct lv as [|val rest]; inversion Hrun; subst.
      * now exists [], [].
      * now exists [val], rest.
    + match type of Hrun with
      | context [gen_loop ?u ?r ?m ?nm ?ix ?acc ?s0] =>
          destruct (gen_loop u r m nm ix acc s0) as [res st1] eqn:Hloop
      end.
      apply gen_loop_front_only in Hloop as (taken & lv' & -> & ->);
        [|intros child_name; apply IH].
      exists taken, lv'. destruct res; inversion Hrun; subst; auto.
Qed.
End FrontOnly.

(** X13. However a call of [gen_tree] on a supplied list ends (with a
    tree, with an exception, or still running), the list it leaves is the
    list it was given without some values at the front: values are never
    added, reordered or taken from elsewhere, and the random source is not
    drawn from. *)
Theorem gen_tree_takes_from_front :
  forall (str_upper : str -> str) (random_integers : nat -> Z)
         (fuel : nat) (depth : Z) (is_max : bool) (br_factor : Z) (name : str)
         (lv : list Z) (k : nat) (r : outcome Node) (st' : gen_state),
    gen_tree str_upper random_integers fuel depth is_max br_factor name
      (mk_state (Some lv) k) = (r, st') ->
    exists taken lv', st' = mk_state (Some lv') k /\ lv = taken ++ lv'.
Proof.
  intros str_upper random_integers fuel depth is_max br_factor name lv k r st'.
  apply gen_tree_front_only.
Qed.

Lemma gen_tree_takes_from_front_witness :
  gen_tree ascii_upper zeros 3 2 true 2 name_A (supplied [1; 2; 3]) =
  (Raise IndexError, supplied []) /\
  exists taken lv', supplied [] = mk_state (Some lv') 0 /\ [1; 2; 3] = taken ++ lv'.
Proof.
  split; [reflexivity|].
  exact (gen_tree_takes_from_front ascii_upper zeros 3 2 true 2 name_A
           [1; 2; 3] 0 (Raise IndexError) (supplied []) eq_refl).
Defined.

(** ** Generation followed by search *)

Lemma uniform_well_formed d b :
  (1 <= b)%nat ->
  forall node, uniform d b node = true -> well_formed node = true.
Proof.
  intros Hb. induction d as [|d IH]; intros [name eval | name child_nodes] Hunif;
    try discriminate; try reflexivity.
  cbn [uniform] in Hunif. apply andb_true_iff in Hunif as [Hlen Hall].
  apply Nat.eqb_eq in Hlen. cbn [well_formed]. apply andb_true_iff. split.
  - destruct child_nodes; [cbn in Hlen; lia | reflexivity].
  - rewrite forallb_forall in *. auto.
Qed.

(** X14. For every depth D >= 0, branching factor B >= 1 (at most
    MAX_BR_FACTOR when D > 0) and supplied list whose first B^D values lie
    strictly between MIN_VALUE and MAX_VALUE, [gen_tree] followed by
    [alpha_beta_root], with either player at the root, gives the
    exhaustive value of the generated tree, and that value is one of those
    first B^D supplied values. *)
Theorem generate_then_search :
  forall (str_upper : str -> str) (random_integers : nat -> Z)
         (fuel : nat) (D : Z) (is_max : bool) (B : Z) (name : str)
         (lv : list Z) (k : nat) (root_is_max : bool),
    0 <= D -> 1 <= B -> (D = 0 \/ B <= MAX_BR_FACTOR) ->
    B ^ D <= Z.of_nat (length lv) ->
    Forall (fun e => MIN_VALUE < e < MAX_VALUE) (firstn (Z.to_nat (B ^ D)) lv) ->
    (Z.to_nat D < fuel)%nat ->
    exists t st',
      gen_tree str_upper random_integers fuel D is_max B name
        (mk_state (Some lv) k) = (Ret t, st') /\
      fst (alpha_beta_root t root_is_max) = minimax t root_is_max /\
      In (fst (alpha_beta_root t root_is_max)) (firstn (Z.to_nat (B ^ D)) lv).
Proof.
  intros str_upper random_integers fuel D is_max B name lv k root_is_max
         HD HB Hchr Hlen Hvalues Hfuel.
  assert (Hpow : Z.to_nat (B ^ D) = (Z.to_nat B ^ Z.to_nat D)%nat)
    by (apply Z2Nat.inj_pow; lia).
  assert (Hpos : 0 <= B ^ D) by (apply Z.pow_nonneg; lia).
  assert (Hfills : fills (Z.to_nat B ^ Z.to_nat D) (Z.to_nat D) (Z.to_nat B)
                     (gen_tree str_upper random_integers fuel D is_max B name)).
  { destruct (Z.eq_dec D 0) as [->|HD0].
    - destruct fuel as [|fuel]; [lia|]. apply gen_tree_leaf_fills.
    - rewrite <- (Z2Nat.id D HD) at 3.
      apply gen_tree_fills; [lia | exact Hfuel]. }
  rewrite Hpow in *.
  destruct (Hfills lv k) as [Hok _].
  destruct Hok as (t & Hrun & Hunif & Hevals); [lia|].
  exists t, (mk_state (Some (skipn (Z.to_nat B ^ Z.to_nat D) lv)) k).
  split; [exact Hrun|].
  assert (Hrange : Forall in_range (leaf_evals t)).
  { rewrite Hevals. eapply Forall_impl; [|exact Hvalues].
    unfold in_range. cbv beta. lia. }
  assert (Hexact : fst (alpha_beta_root t root_is_max) = minimax t root_is_max)
    by (apply alpha_beta_root_exact, minimax_in_range, Hrange).
  split; [exact Hexact|].
  rewrite Hexact, <- Hevals. apply minimax_is_leaf; [|exact Hrange].
  apply (uniform_well_formed (Z.to_nat D) (Z.to_nat B)); [lia | exact Hunif].
Qed.

Lemma generate_then_search_witness :
  (0 <= 2 /\ 1 <= 2 /\ (2 = 0 \/ 2 <= MAX_BR_FACTOR) /\
   2 ^ 2 <= Z.of_nat (length [3; 5; 2; 9]) /\
   Forall (fun e => MIN_VALUE < e < MAX_VALUE)
          (firstn (Z.to_nat (2 ^ 2)) [3; 5; 2; 9]) /\
   (Z.to_nat 2 < 3)%nat) /\
  exists t st',
    gen_tree ascii_upper zeros 3 2 true 2 name_A (mk_state (Some [3; 5; 2; 9]) 0) =
    (Ret t, st') /\
    fst (alpha_beta_root t true) = minimax t true /\
    In (fst (alpha_beta_root t true)) (firstn (Z.to_nat (2 ^ 2)) [3; 5; 2; 9]).
Proof.
  assert (H : 0 <= 2 /\ 1 <= 2 /\ (2 = 0 \/ 2 <= MAX_BR_FACTOR) /\
              2 ^ 2 <= Z.of_nat (length [3; 5; 2; 9]) /\
              Forall (fun e => MIN_VALUE < e < MAX_VALUE)
                     (firstn (Z.to_nat (2 ^ 2)) [3; 5; 2; 9]) /\
              (Z.to_nat 2 < 3)%nat).
  { unfold MAX_BR_FACTOR, CHR_RANGE, ord_a, MIN_VALUE, MAX_VALUE. cbn.
    repeat split; try lia. right. lia.
    repeat constructor; lia. }
  split; [exact H|].
  destruct H as (H1 & H2 & H3 & H4 & H5 & H6).
  exact (generate_then_search ascii_upper zeros 3 2 true 2 name_A [3; 5; 2; 9] 0
           true H1 H2 H3 H4 H5 H6).
Defined.
